(** * slowmedown: the signal transforms and the command of [slowmedown.py]

    A shallow embedding of [change_speed_preserve_pitch],
    [enhance_guitar_frequencies], [mono_to_stereo_effect] and of the
    command [slowmedown] that chains them.

    Number model.  Python floats are modelled as exact rationals in
    canonical form ([Qc]); every sample is therefore finite, and rounding
    error is not part of the model.  The sample rate is a Python [int].

    Library model.  The script delegates to numpy, scipy.signal and
    librosa.  The parts of those libraries that decide shapes, lengths and
    raised exceptions are written out below, following the library code the
    script calls.  Three numerical kernels stay abstract and are passed as
    arguments: the Butterworth band-pass pole/zero design, the Butterworth
    low-pass coefficients, and the STFT / phase-vocoder resynthesis.  So
    do the calls by which the command writes, converts, removes and
    renames files. *)

From Stdlib Require Import ZArith QArith Qcanon Qcabs Qround Qpower.
From Stdlib Require Import List Bool Lia Lqa.
From Stdlib Require Ascii String.
Import ListNotations.
Import Ascii.AsciiSyntax String.StringSyntax.

Delimit Scope string_scope with string.
Delimit Scope char_scope with char.

Local Open Scope Qc_scope.

(** ** Exceptions and results *)

Inductive error : Type :=
| ParameterError      (* librosa.util.exceptions.ParameterError *)
| ValueError
| ZeroDivisionError
| LinAlgError.        (* numpy.linalg.LinAlgError *)

Inductive result (A : Type) : Type :=
| Ok (a : A)
| Err (e : error).

Arguments Ok {A} a.
Arguments Err {A} e.

Definition bind {A B : Type} (r : result A) (k : A -> result B) : result B :=
  match r with
  | Ok a => k a
  | Err e => Err e
  end.

Notation "x <- c ;; k" := (bind c (fun x => k))
  (at level 61, c at next level, right associativity).

Definition raises {A : Type} (r : result A) : Prop :=
  exists e, r = Err e.

Definition returns {A : Type} (r : result A) : Prop :=
  exists a, r = Ok a.

(** ** Python numbers *)

Module Py.

(** A decimal or fractional literal. *)
Definition lit (n : Z) (d : positive) : Qc := Q2Qc (n # d).

Definition of_Z (n : Z) : Qc := Q2Qc (inject_Z n).

Definition of_nat (n : nat) : Qc := of_Z (Z.of_nat n).

Definition leb (x y : Qc) : bool := Qle_bool x y.

Definition ltb (x y : Qc) : bool := negb (Qle_bool y x).

(** [a / b]: true division, [ZeroDivisionError] on a zero divisor. *)
Definition truediv (a b : Qc) : result Qc :=
  if Qc_eq_bool b 0 then Err ZeroDivisionError else Ok (a / b).

(** [int(x)]: truncation towards zero. *)
Definition int (x : Qc) : Z := Z.quot (Qnum x) (Zpos (Qden x)).

(** [round(x)] with one argument: nearest integer, ties to even. *)
Definition round (x : Qc) : Z :=
  let f := Qfloor x in
  match Qccompare (x - of_Z f) (lit 1 2) with
  | Lt => f
  | Gt => (f + 1)%Z
  | Eq => if Z.even f then f else (f + 1)%Z
  end.

End Py.

(** ** numpy arrays *)

(** An array of rank one, or of rank two given by its rows
    ([shape[0]] is the number of rows). *)
Inductive ndarray : Type :=
| Arr1 (v : list Qc)
| Arr2 (rows : list (list Qc)).

Module Np.

(** [np.zeros(n)]: negative dimensions are refused. *)
Definition zeros (n : Z) : result (list Qc) :=
  if (n <? 0)%Z then Err ValueError else Ok (repeat 0 (Z.to_nat n)).

(** [x[:-k]] on a rank-one array, for [k >= 0].  The stop index [-0] is
    [0]; a negative stop counts from the end and is clipped at [0]. *)
Definition slice_to_neg (x : list Qc) (k : Z) : list Qc :=
  if (k =? 0)%Z then [] else firstn (length x - Z.to_nat k) x.

(** Element-wise arithmetic with a scalar. *)
Definition scale (x : list Qc) (c : Qc) : list Qc := map (fun v => v * c) x.

Definition div (x : list Qc) (c : Qc) : list Qc := map (fun v => v / c) x.

(** [x + y] for two arrays of one length. *)
Fixpoint add (x y : list Qc) : list Qc :=
  match x, y with
  | a :: x', b :: y' => (a + b) :: add x' y'
  | _, _ => []
  end.

(** [np.abs]. *)
Definition abs (x : list Qc) : list Qc := map Qcabs x.

Definition max2 (a b : Qc) : Qc := if Py.leb a b then b else a.

(** [np.max]: a zero-size array has no maximum. *)
Definition max (x : list Qc) : result Qc :=
  match x with
  | [] => Err ValueError
  | a :: x' => Ok (fold_left max2 x' a)
  end.

(** [np.vstack([l, r])] for two rank-one arrays. *)
Definition vstack (l r : list Qc) : result ndarray :=
  if (length l =? length r)%nat then Ok (Arr2 [l; r]) else Err ValueError.

End Np.

(** ** scipy.signal *)

(** A second-order filter [b0 b1 b2 / 1 a1 a2]; the leading denominator
    coefficient is normalised to one by the designers. *)
Record biquad : Type := {
  b0 : Qc; b1 : Qc; b2 : Qc;
  a1 : Qc; a2 : Qc
}.

Module Sig.

(** Argument checks of [iirfilter] for a digital band filter: both
    critical frequencies positive, increasing, and below one. *)
Definition check_band (low high : Qc) : result unit :=
  if Py.leb low 0 || Py.leb high 0 then Err ValueError
  else if negb (Py.ltb low high) then Err ValueError
  else if Py.leb 1 low || Py.leb 1 high then Err ValueError
  else Ok tt.

(** [lfilter(b, a, x, zi=(z0, z1))] for three taps: direct form II
    transposed. *)
Fixpoint lfilter (c : biquad) (z0 z1 : Qc) (x : list Qc) : list Qc :=
  match x with
  | [] => []
  | v :: x' =>
      let y := b0 c * v + z0 in
      y :: lfilter c (b1 c * v - a1 c * y + z1) (b2 c * v - a2 c * y) x'
  end.

(** [sosfilt(sos, x)]: the sections in sequence, each from rest.  (The
    library loops over samples first and sections second; the arithmetic
    on each value is the same.) *)
Definition sosfilt (sos : list biquad) (x : list Qc) : list Qc :=
  fold_left (fun acc c => lfilter c 0 0 acc) sos x.

(** [lfilter_zi(b, a)]: the state of the step response, the solution of
    [(I - companion(a).T) zi = b[1:] - a[1:] * b[0]]. *)
Definition lfilter_zi (c : biquad) : result (Qc * Qc) :=
  let det := 1 + a1 c + a2 c in
  if Qc_eq_bool det 0 then Err LinAlgError
  else
    let B0 := b1 c - a1 c * b0 c in
    let B1 := b2 c - a2 c * b0 c in
    let z0 := (B0 + B1) / det in
    Ok (z0, B1 - a2 c * z0).

(** [odd_ext(x, n)]: [2*x[0] - x[n:0:-1]], [x], [2*x[-1] - x[-2:-(n+2):-1]]. *)
Definition odd_ext (x : list Qc) (n : nat) : list Qc :=
  let left_end := hd 0 x in
  let right_end := last x 0 in
  map (fun v => Py.lit 2 1 * left_end - v) (rev (firstn n (tl x)))
    ++ x
    ++ map (fun v => Py.lit 2 1 * right_end - v) (firstn n (tl (rev x))).

(** Default pad length of [filtfilt]: [3 * max(len(a), len(b))]. *)
Definition edge : nat := 9.

(** [filtfilt(b, a, x)] with the default odd padding. *)
Definition filtfilt (c : biquad) (x : list Qc) : result (list Qc) :=
  if (length x <=? edge)%nat then Err ValueError
  else
    let ext := odd_ext x edge in
    zi <- lfilter_zi c ;;
    let x0 := hd 0 ext in
    let y := lfilter c (fst zi * x0) (snd zi * x0) ext in
    let y0 := last y 0 in
    let y := lfilter c (fst zi * y0) (snd zi * y0) (rev y) in
    let y := rev y in
    Ok (firstn (length y - 2 * edge) (skipn edge y)).

End Sig.

(** ** librosa *)

Module Librosa.

(** Default STFT frame size. *)
Definition n_fft : Z := 2048.

(** [util.fix_length(y, size)]: trim, or pad with zeros. *)
Definition fix_length (y : list Qc) (size : nat) : list Qc :=
  firstn size y ++ repeat 0 (size - length y).

End Librosa.

(** ** The script *)

Section Slowmedown.

(** Samples emitted by [stft], [phase_vocoder] and the overlap-add of
    [istft] for a signal and a rate, before the length is fixed. *)
Variable resynthesis : list Qc -> Qc -> list Qc.

(** Sections designed by [butter(N, [low, high], btype='band',
    output='sos')] once its arguments are accepted. *)
Variable band_design : nat -> Qc -> Qc -> list biquad.

(** Result of [iirfilter(2, 0.5, btype='lowpass', ftype='butter',
    output='ba')]. *)
Variable lowpass_ba : biquad.

(** [librosa.effects.time_stretch(y, rate=rate)]: the rate is checked,
    the signal goes through [stft] and [phase_vocoder], and [istft] is
    called with [length = int(round(y.shape[-1] / rate))], which pads or
    clips its output to exactly that many samples.  The finiteness check
    of [stft] on the samples always passes in this number model. *)
Definition time_stretch (y : list Qc) (rate : Qc) : result (list Qc) :=
  if Py.leb rate 0 then Err ParameterError
  else
    let len_stretch := Py.round (Py.of_nat (length y) / rate) in
    Ok (Librosa.fix_length (resynthesis y rate) (Z.to_nat len_stretch)).

(** [scipy.signal.butter(N, [low, high], btype='band', output='sos')]. *)
Definition butter (N : nat) (low high : Qc) : result (list biquad) :=
  _ <- Sig.check_band low high ;;
  Ok (band_design N low high).

Definition change_speed_preserve_pitch
    (audio_data : list Qc) (sr : Z) (speed_factor : Qc) : result (list Qc) :=
  time_stretch audio_data speed_factor.

Definition enhance_guitar_frequencies
    (audio_data : list Qc) (sr : Z) : result (list Qc) :=
  let nyquist := Py.of_Z sr / Py.lit 2 1 in
  low_freq <- Py.truediv (Py.lit 60 1) nyquist ;;
  high_freq <- Py.truediv (Py.lit 5000 1) nyquist ;;
  sos <- butter 4 low_freq high_freq ;;
  let filtered := Sig.sosfilt sos audio_data in
  let enhanced := Np.add audio_data (Np.scale filtered (Py.lit 4 10)) in
  max_val <- Np.max (Np.abs enhanced) ;;
  if Py.ltb 1 max_val then Ok (Np.div enhanced max_val) else Ok enhanced.

Definition mono_to_stereo_effect
    (audio_data : ndarray) (sr : Z) : result ndarray :=
  let delay_samples := Py.int (Py.lit 15 1000 * Py.of_Z sr) in
  match audio_data with
  | Arr2 rows =>
      if (length rows =? 2)%nat then Ok audio_data
      else
        (* a rank-one block of zeros cannot be joined to a rank-two slice *)
        _ <- Np.zeros delay_samples ;;
        Err ValueError
  | Arr1 samples =>
      let left_channel := samples in
      head <- Np.zeros delay_samples ;;
      let right_channel := head ++ Np.slice_to_neg samples delay_samples in
      right_channel <- Sig.filtfilt lowpass_ba right_channel ;;
      let left_channel := Np.scale left_channel (Py.lit 95 100) in
      let right_channel := Np.scale right_channel (Py.lit 85 100) in
      Np.vstack left_channel right_channel
  end.

End Slowmedown.

(** ** Intermediate signals named by the specification *)

(** The band edges handed to [butter], as fractions of the Nyquist rate. *)
Definition band_edge (hz : Z) (sr : Z) : Qc :=
  Py.lit hz 1 / (Py.of_Z sr / Py.lit 2 1).

(** [original + 0.4 * filtered] for a given band design. *)
Definition mixed (band_design : nat -> Qc -> Qc -> list biquad)
    (audio_data : list Qc) (sr : Z) : list Qc :=
  Np.add audio_data
    (Np.scale
       (Sig.sosfilt (band_design 4%nat (band_edge 60 sr) (band_edge 5000 sr))
          audio_data)
       (Py.lit 4 10)).

(** The Haas delay in samples, [int(0.015 * sr)]. *)
Definition delay_of (sr : Z) : Z := Py.int (Py.lit 15 1000 * Py.of_Z sr).

(** The input delayed by [d] samples: zeros at the head, the tail cut. *)
Definition delayed (samples : list Qc) (d : nat) : list Qc :=
  repeat 0 d ++ firstn (length samples - d) samples.

Definition within (bound : Qc) (x : list Qc) : Prop :=
  Forall (fun v => Qcabs v <= bound) x.

(** Decidable readings of a returned stereo frame. *)
Definition channels_equal (out : result ndarray) : bool :=
  match out with
  | Ok (Arr2 [l; r]) => if list_eq_dec Qc_eq_dec l r then true else false
  | _ => false
  end.

Definition right_exceeds_unit (out : result ndarray) (i : nat) : bool :=
  match out with
  | Ok (Arr2 [l; r]) => Py.ltb 1 (Qcabs (nth i r 0))
  | _ => false
  end.

(** ** Reference instances of the abstract kernels *)

(** The low-pass Butterworth coefficients of order two at half the Nyquist
    frequency are [b = (1, 2, 1) / (2 + sqrt 2)] and
    [a = (1, 0, 3 - 2 sqrt 2)].  The instance holds the binary64 values
    nearest to them: 0.2928932188134525, 0.585786437626905 and
    0.1715728752538099. *)
Definition butter2_half : biquad := {|
  b0 := Py.lit 5276295164430439 18014398509481984;
  b1 := Py.lit 5276295164430439 9007199254740992;
  b2 := Py.lit 5276295164430439 18014398509481984;
  a1 := 0;
  a2 := Py.lit 6181564296479543 36028797018963968
|}.

(** A resynthesis that hands the signal back. *)
Definition resynthesis_id (y : list Qc) (rate : Qc) : list Qc := y.

(** A design that yields four copies of one gentle section. *)
Definition band_design_flat (N : nat) (low high : Qc) : list biquad :=
  repeat {| b0 := Py.lit 1 2; b1 := 0; b2 := 0; a1 := 0; a2 := 0 |} N.

Definition q_list (l : list Z) : list Qc := map Py.of_Z l.

(** A 340-sample clip: ten full-scale samples, then silence. *)
Definition burst : list Qc :=
  q_list [-1; 1; 1; -1; -1; 1; 1; 1; 1; -1]%Z ++ repeat 0 330.

(** ** The command: file names *)

(** A Python [str] as its list of characters. *)
Definition path : Type := list Ascii.ascii.

Definition str (s : String.string) : path := String.list_ascii_of_string s.

Module Str.

(** [s.startswith(pat)]. *)
Fixpoint starts_with (pat s : path) : bool :=
  match pat, s with
  | [], _ => true
  | a :: pat', b :: s' => Ascii.eqb a b && starts_with pat' s'
  | _ :: _, [] => false
  end.

(** The scan of [s.replace(old, new)] for a non-empty [old]: left to
    right, each match replaced and stepped over; [skip] counts the
    characters of the current match still to step over. *)
Fixpoint replace_from (old new s : path) (skip : nat) : path :=
  match s with
  | [] => []
  | c :: s' =>
      match skip with
      | S k => replace_from old new s' k
      | O =>
          if starts_with old s
          then new ++ replace_from old new s' (length old - 1)
          else c :: replace_from old new s' 0
      end
  end.

Definition replace (s old new : path) : path := replace_from old new s 0.

(** [s.rfind(c)] for a single character: the highest index, or -1. *)
Fixpoint rfind_from (c : Ascii.ascii) (s : path) (i found : Z) : Z :=
  match s with
  | [] => found
  | x :: s' => rfind_from c s' (i + 1) (if Ascii.eqb x c then i else found)
  end.

Definition rfind (s : path) (c : Ascii.ascii) : Z := rfind_from c s 0 (-1).

(** [s[:i]] and [s[i:]] for [i >= 0]. *)
Definition upto (s : path) (i : Z) : path := firstn (Z.to_nat i) s.

Definition from (s : path) (i : Z) : path := skipn (Z.to_nat i) s.

End Str.

Module OsPath.

(** The loop of [genericpath._splitext]: look for a character that is not
    a dot among the [n] characters from [filenameIndex] on. *)
Fixpoint has_stem (p : path) (filenameIndex : Z) (n : nat) : bool :=
  match n with
  | O => false
  | S n' =>
      match nth_error p (Z.to_nat filenameIndex) with
      | Some c =>
          if Ascii.eqb c "."%char then has_stem p (filenameIndex + 1) n'
          else true
      | None => true
      end
  end.

(** [os.path.splitext(p)] (POSIX): split at the last dot of the last
    component, unless that component has only leading dots before it. *)
Definition splitext (p : path) : path * path :=
  let sepIndex := Str.rfind p "/"%char in
  let dotIndex := Str.rfind p "."%char in
  if (sepIndex <? dotIndex)%Z
       && has_stem p (sepIndex + 1) (Z.to_nat (dotIndex - (sepIndex + 1)))
  then (Str.upto p dotIndex, Str.from p dotIndex)
  else (p, []).

End OsPath.

(** The values of the [--format] choice. *)
Inductive format : Type := mp3 | wav | ogg.

Definition format_name (f : format) : path :=
  match f with
  | mp3 => str "mp3"%string
  | wav => str "wav"%string
  | ogg => str "ogg"%string
  end.

(** [f"{base}_slowed.{format}"] with [base] from [splitext(input_file)]. *)
Definition default_output (input_file : path) (f : format) : path :=
  fst (OsPath.splitext input_file) ++ str "_slowed."%string ++ format_name f.

(** The output name: the [--output] option, or the default. *)
Definition output_path (output : option path) (input_file : path)
    (f : format) : path :=
  match output with
  | None => default_output input_file f
  | Some o => o
  end.

(** [output.replace(f'.{format}', '_temp.wav')]. *)
Definition temp_wav_of (output : path) (f : format) : path :=
  Str.replace output (str "."%string ++ format_name f)
    (str "_temp.wav"%string).

(** [old] occurs in [s]. *)
Definition occurs (old s : path) : Prop :=
  exists pre post, s = pre ++ old ++ post.

(** ** The command: files *)

(** What a file holds: the array handed to [sf.write] with its rate, or
    the export of such a file to a compressed format. *)
Inductive file : Type :=
| WavFile (data : ndarray) (sr : Z)
| Encoded (f : format) (data : ndarray) (sr : Z).

(** The files reachable by the run, by path. *)
Definition disk : Type := path -> option file.

(** Why a run stopped. *)
Inductive failure : Type :=
| Raised (e : error)        (* an exception of the processing stages *)
| Refused.                  (* the writer, the converter or the file system *)

(** The calls of the export that leave the script: [sf.write],
    [AudioSegment.from_wav], [AudioSegment.export], [os.remove] and
    [os.rename].  Whether they accept a name depends on the formats known
    to libsndfile (the container is inferred from the extension of the
    name, and a name without a known extension is refused), on the
    directories present and on the converter installed, none of which is
    in the repository: they are taken as given.  Each returns the disk it
    leaves and the reason of a stop, if any. *)
Record host : Type := {
  sf_write : disk -> path -> ndarray -> Z -> disk * option failure;
  from_wav : disk -> path -> option (ndarray * Z);
  export : disk -> ndarray * Z -> path -> format -> disk * option failure;
  os_remove : disk -> path -> disk * option failure;
  os_rename : disk -> path -> path -> disk * option failure
}.

(** A host on which every call is refused. *)
Definition host_refusing : host := {|
  sf_write := fun d _ _ _ => (d, Some Refused);
  from_wav := fun _ _ => None;
  export := fun d _ _ _ => (d, Some Refused);
  os_remove := fun d _ => (d, Some Refused);
  os_rename := fun d _ _ => (d, Some Refused)
|}.

(** ** The command: processing and export *)

(** [a.T] for an array of rank two with at least one row. *)
Definition transpose (a : ndarray) : ndarray :=
  match a with
  | Arr1 v => Arr1 v
  | Arr2 rows =>
      Arr2 (map (fun i => map (fun row => nth i row 0) rows)
              (seq 0 (length (hd [] rows))))
  end.

Section Command.

Variable resynthesis : list Qc -> Qc -> list Qc.
Variable band_design : nat -> Qc -> Qc -> list biquad.
Variable lowpass_ba : biquad.
Variable os : host.

(** The stages of [slowmedown] between [librosa.load] and the choice of
    the output name. *)
Definition process (audio_data : list Qc) (sr : Z) (speed : Qc)
    (enhance_guitar stereo : bool) : result ndarray :=
  audio_data <-
    (if negb (Qc_eq_bool speed 1)
     then change_speed_preserve_pitch resynthesis audio_data sr speed
     else Ok audio_data) ;;
  audio_data <-
    (if enhance_guitar
     then enhance_guitar_frequencies band_design audio_data sr
     else Ok audio_data) ;;
  if stereo
  then mono_to_stereo_effect lowpass_ba (Arr1 audio_data) sr
  else Ok (Arr2 [audio_data]).

(** [slowmedown], from the decoded recording [(audio_data, sr)] on; the
    result is the disk after the run and the reason of a stop, if any. *)
Definition slowmedown (audio_data : list Qc) (sr : Z) (input_file : path)
    (speed : Qc) (enhance_guitar stereo : bool)
    (output : option path) (fmt : format) (d : disk)
    : disk * option failure :=
  match process audio_data sr speed enhance_guitar stereo with
  | Err e => (d, Some (Raised e))
  | Ok audio_data =>
      let output := output_path output input_file fmt in
      let audio_data := transpose audio_data in
      let temp_wav := temp_wav_of output fmt in
      match sf_write os d temp_wav audio_data sr with
      | (d, Some why) => (d, Some why)
      | (d, None) =>
          match fmt with
          | wav => os_rename os d temp_wav output
          | _ =>
              match from_wav os d temp_wav with
              | None => (d, Some Refused)
              | Some audio_segment =>
                  match export os d audio_segment output fmt with
                  | (d, Some why) => (d, Some why)
                  | (d, None) => os_remove os d temp_wav
                  end
              end
          end
      end
  end.

End Command.

(** Channels of the frames handed to the writer. *)
Definition channels (stereo : bool) : nat := if stereo then 2 else 1.

(** A signal of zeros only. *)
Definition silent (x : list Qc) : Prop := Forall (fun v => v = 0) x.

(** A power of two with an integer exponent. *)
Definition pow2 (z : Z) : Qc := Q2Qc (Qpower 2 z).

(** [q] is [2^z] times a fraction with an odd denominator: [q] is
    divisible by [2^z] as often as by any power of two at all. *)
Definition dyadic_ge (q : Qc) (z : Z) : Prop :=
  exists a t : Z, Z.odd t = true /\ q * Py.of_Z t = Py.of_Z a * pow2 z.

(** The values met while the zero-phase filter runs over [n] delayed
    samples -- the input [sv], the forward pass [uv], the backward pass
    [wv] -- all divisible by [2^z], the last two outputs of the forward
    pass by [2^(z-1)]. *)
Definition descent_state (n : nat) (sv uv wv : nat -> Qc) (z : Z) : Prop :=
  (forall i, dyadic_ge (sv i) z) /\
  (forall j, (j + 3 <= n + 18)%nat -> dyadic_ge (uv j) z) /\
  (forall k, (9 <= k < n + 18)%nat -> k <> (n + 16)%nat ->
             dyadic_ge (wv k) z) /\
  dyadic_ge (wv (n + 16)%nat) z /\
  dyadic_ge (uv (n + 17)%nat) (z - 1) /\
  dyadic_ge (uv (n + 16)%nat) (z - 1).

(** The state [zf] that [lfilter] hands back with its output, after the
    samples [x]. *)
Fixpoint lfilter_final (c : biquad) (z0 z1 : Qc) (x : list Qc) : Qc * Qc :=
  match x with
  | [] => (z0, z1)
  | v :: x' =>
      let y := b0 c * v + z0 in
      lfilter_final c (b1 c * v - a1 c * y + z1) (b2 c * v - a2 c * y) x'
  end.

(** What [odd_ext] makes of a unit sample after silence: the sample,
    then nine times its double. *)
Definition edge_step : list Qc := 1 :: repeat (Py.lit 2 1) 9.

(** Twenty-four samples, for a delay of fifteen at 1000 Hz. *)
Definition short_clip : list Qc :=
  map (fun n => Py.of_Z n * Py.lit 1 32768)
    [12000; -8000; 30000; 1; -32768; 32767; 0; 0; 5; -5; 100; 20000;
     -20000; 7; 0; 0; 0; 9; 9; -9; 16384; -16384; 3; 1]%Z.

(** ** Arithmetic on canonical rationals *)

Lemma this_Q2Qc (q : Q) : (this (Q2Qc q) == q)%Q.
Proof. simpl. apply Qred_correct. Qed.

Ltac qc_to_q :=
  unfold Qcle, Qclt, Qcdiv, Qcminus, Qcplus, Qcmult, Qcopp, Qcinv,
    Py.of_nat, Py.of_Z, Py.lit in *;
  repeat rewrite this_Q2Qc in *.

Lemma leb_le (x y : Qc) : Py.leb x y = true <-> x <= y.
Proof. unfold Py.leb, Qcle. apply Qle_bool_iff. Qed.

Lemma leb_gt (x y : Qc) : Py.leb x y = false <-> y < x.
Proof.
  unfold Py.leb, Qclt. split; intro H.
  - apply Qnot_le_lt. intro L. apply Qle_bool_iff in L. congruence.
  - destruct (Qle_bool x y) eqn:E; [|reflexivity].
    apply Qle_bool_iff in E. exfalso. exact (Qlt_not_le _ _ H E).
Qed.

Lemma ltb_lt (x y : Qc) : Py.ltb x y = true <-> x < y.
Proof.
  unfold Py.ltb. rewrite negb_true_iff. apply (leb_gt y x).
Qed.

Lemma ltb_ge (x y : Qc) : Py.ltb x y = false <-> y <= x.
Proof.
  unfold Py.ltb. rewrite negb_false_iff. apply (leb_le y x).
Qed.

Lemma Qc_eq_bool_true (x y : Qc) : Qc_eq_bool x y = true <-> x = y.
Proof.
  split; [apply Qc_eq_bool_correct|].
  intros ->. unfold Qc_eq_bool. destruct (Qc_eq_dec y y); congruence.
Qed.

Lemma Qc_eq_bool_false (x y : Qc) : Qc_eq_bool x y = false <-> x <> y.
Proof.
  unfold Qc_eq_bool. destruct (Qc_eq_dec x y); split; congruence.
Qed.

Lemma of_Z_this (z : Z) : (this (Py.of_Z z) == inject_Z z)%Q.
Proof. apply this_Q2Qc. Qed.

Lemma of_Z_le (a b : Z) : (a <= b)%Z <-> Py.of_Z a <= Py.of_Z b.
Proof. unfold Qcle. rewrite !of_Z_this, <- Zle_Qle. reflexivity. Qed.

Lemma of_Z_lt (a b : Z) : (a < b)%Z <-> Py.of_Z a < Py.of_Z b.
Proof. unfold Qclt. rewrite !of_Z_this, <- Zlt_Qlt. reflexivity. Qed.

Lemma Qcdiv_nonneg (x y : Qc) : 0 <= x -> 0 < y -> 0 <= x / y.
Proof.
  intros Hx Hy. qc_to_q.
  apply Qmult_le_0_compat; [exact Hx|].
  apply Qlt_le_weak, Qinv_lt_0_compat, Hy.
Qed.

(** ** [round] stays within a half of its argument *)

Lemma round_floor_cases (x : Qc) :
  Py.round x = Qfloor x \/ Py.round x = (Qfloor x + 1)%Z.
Proof.
  unfold Py.round.
  destruct (Qccompare _ _); [destruct (Z.even _)| |]; auto.
Qed.

Lemma round_nonneg (x : Qc) : 0 <= x -> (0 <= Py.round x)%Z.
Proof.
  intro Hx.
  assert (0 <= Qfloor x)%Z.
  { change 0%Z with (Qfloor 0). apply Qfloor_resp_le. exact Hx. }
  destruct (round_floor_cases x) as [-> | ->]; lia.
Qed.

Lemma this_minus_of_Z (x : Qc) (z : Z) :
  (this (x - Py.of_Z z) == x - inject_Z z)%Q.
Proof. qc_to_q. reflexivity. Qed.

Lemma this_lit (n : Z) (d : positive) : (this (Py.lit n d) == n # d)%Q.
Proof. apply this_Q2Qc. Qed.

Ltac floor_lra x :=
  change (inject_Z 1) with 1%Q in *;
  let f := fresh "f" in
  set (f := inject_Z (Qfloor x)) in *; clearbody f; lra.

Lemma round_half_Q (x : Qc) :
  (- (1 # 2) <= inject_Z (Py.round x) - x <= 1 # 2)%Q.
Proof.
  pose proof (Qfloor_le x) as Hlo.
  pose proof (Qlt_floor x) as Hhi.
  rewrite inject_Z_plus in Hhi.
  unfold Py.round.
  destruct (Qccompare (x - Py.of_Z (Qfloor x)) (Py.lit 1 2)) eqn:C;
    unfold Qccompare in C.
  - apply Qeq_alt in C. rewrite this_minus_of_Z, this_lit in C.
    destruct (Z.even (Qfloor x)); try rewrite inject_Z_plus;
      split; floor_lra x.
  - apply Qlt_alt in C. rewrite this_minus_of_Z, this_lit in C.
    split; floor_lra x.
  - apply Qgt_alt in C. rewrite this_minus_of_Z, this_lit in C.
    rewrite inject_Z_plus. split; floor_lra x.
Qed.

Lemma round_half (x : Qc) :
  Qcabs (Py.of_Z (Py.round x) - x) <= Py.lit 1 2.
Proof.
  apply Qcabs_Qcle_condition.
  pose proof (round_half_Q x) as [H1 H2].
  split; qc_to_q;
    set (r := inject_Z (Py.round x)) in *; clearbody r; lra.
Qed.

Lemma lit_le_compute (n m : Z) (d e : positive) :
  (n * Zpos e <= m * Zpos d)%Z -> Py.lit n d <= Py.lit m e.
Proof.
  intro H. unfold Qcle. rewrite !this_lit. exact H.
Qed.

Lemma of_nat_nonneg (n : nat) : 0 <= Py.of_nat n.
Proof.
  apply (proj1 (of_Z_le 0 (Z.of_nat n))). lia.
Qed.

Lemma of_nat_to_nat (z : Z) : (0 <= z)%Z -> Py.of_nat (Z.to_nat z) = Py.of_Z z.
Proof.
  intro H. unfold Py.of_nat. rewrite Z2Nat.id by exact H. reflexivity.
Qed.

(** ** Time stretch *)

Lemma fix_length_length (y : list Qc) (size : nat) :
  length (Librosa.fix_length y size) = size.
Proof.
  unfold Librosa.fix_length.
  rewrite length_app, length_firstn, repeat_length. lia.
Qed.

Section StretchFacts.

Variable resynthesis : list Qc -> Qc -> list Qc.

Lemma stretch_nonpositive (s : list Qc) (sr : Z) (f : Qc) :
  f <= 0 -> change_speed_preserve_pitch resynthesis s sr f = Err ParameterError.
Proof.
  intro H. unfold change_speed_preserve_pitch, time_stretch.
  apply leb_le in H. rewrite H. reflexivity.
Qed.

Lemma stretch_positive (s : list Qc) (sr : Z) (f : Qc) :
  0 < f ->
  change_speed_preserve_pitch resynthesis s sr f =
    Ok (Librosa.fix_length (resynthesis s f)
          (Z.to_nat (Py.round (Py.of_nat (length s) / f)))).
Proof.
  intro H. unfold change_speed_preserve_pitch, time_stretch.
  apply leb_gt in H. rewrite H. reflexivity.
Qed.

Lemma stretch_length (s : list Qc) (sr : Z) (f : Qc) (out : list Qc) :
  change_speed_preserve_pitch resynthesis s sr f = Ok out ->
  Py.of_nat (length out) = Py.of_Z (Py.round (Py.of_nat (length s) / f)).
Proof.
  destruct (Qclt_le_dec 0 f) as [Hf | Hf].
  - rewrite (stretch_positive s sr f Hf). intros [= <-].
    rewrite fix_length_length.
    apply of_nat_to_nat, round_nonneg, Qcdiv_nonneg;
      [apply of_nat_nonneg | exact Hf].
  - rewrite (stretch_nonpositive s sr f Hf). discriminate.
Qed.

End StretchFacts.

(** C1. For every signal, sample rate and factor [f > 0] the stretch
    returns, and the length of its output differs from the ideal target
    [len(s) / f] by at most one frame size (by at most a half, in fact:
    the length is [round(len(s) / f)]). *)
Theorem stretch_length_within_one_frame
    (resynthesis : list Qc -> Qc -> list Qc)
    (s : list Qc) (sr : Z) (f : Qc) :
  0 < f ->
  exists out,
    change_speed_preserve_pitch resynthesis s sr f = Ok out /\
    Qcabs (Py.of_nat (length out) - Py.of_nat (length s) / f)
      <= Py.of_Z Librosa.n_fft.
Proof.
  intro Hf. eexists. split.
  - apply stretch_positive. exact Hf.
  - rewrite fix_length_length.
    rewrite of_nat_to_nat
      by (apply round_nonneg, Qcdiv_nonneg;
          [apply of_nat_nonneg | exact Hf]).
    eapply Qcle_trans; [apply round_half|].
    unfold Qcle. rewrite this_lit, of_Z_this. unfold Librosa.n_fft.
    unfold Qle. simpl. lia.
Qed.

Lemma stretch_length_within_one_frame_witness :
  exists out,
    change_speed_preserve_pitch resynthesis_id
      (q_list [1; 0; -1; 0; 1; 0; -1; 0]%Z) 22050 (Py.lit 3 4) = Ok out /\
    Qcabs (Py.of_nat (length out)
           - Py.of_nat (length (q_list [1; 0; -1; 0; 1; 0; -1; 0]%Z))
             / Py.lit 3 4)
      <= Py.of_Z Librosa.n_fft.
Proof.
  apply (stretch_length_within_one_frame resynthesis_id).
  reflexivity.
Defined.

(** C2. The stretch fails exactly when the factor is not positive; the
    failure is a [ParameterError] and carries no samples, and for a
    positive factor a signal is returned. *)
Theorem stretch_fails_iff_factor_nonpositive
    (resynthesis : list Qc -> Qc -> list Qc)
    (s : list Qc) (sr : Z) (f : Qc) :
  (raises (change_speed_preserve_pitch resynthesis s sr f) <-> f <= 0) /\
  (change_speed_preserve_pitch resynthesis s sr f = Err ParameterError
     <-> f <= 0) /\
  (returns (change_speed_preserve_pitch resynthesis s sr f) <-> 0 < f).
Proof.
  destruct (Qclt_le_dec 0 f) as [Hf | Hf].
  - pose proof (stretch_positive resynthesis s sr f Hf) as E.
    pose proof (Qclt_not_le _ _ Hf) as N.
    repeat split; intro H; try contradiction; try exact Hf.
    + destruct H as [e H]. congruence.
    + congruence.
    + eexists. exact E.
  - pose proof (stretch_nonpositive resynthesis s sr f Hf) as E.
    pose proof (Qcle_not_lt _ _ Hf) as N.
    repeat split; intro H; try contradiction; try exact Hf; try exact E.
    + eexists. exact E.
    + destruct H as [a H]. congruence.
Qed.

(** ** Peak of an array *)

Lemma max2_ge_l (a b : Qc) : a <= Np.max2 a b.
Proof.
  unfold Np.max2. destruct (Py.leb a b) eqn:E.
  - apply leb_le, E.
  - apply Qcle_refl.
Qed.

Lemma max2_ge_r (a b : Qc) : b <= Np.max2 a b.
Proof.
  unfold Np.max2. destruct (Py.leb a b) eqn:E.
  - apply Qcle_refl.
  - apply Qclt_le_weak, leb_gt, E.
Qed.

Lemma fold_max2_ge (l : list Qc) (a : Qc) :
  a <= fold_left Np.max2 l a /\ Forall (fun v => v <= fold_left Np.max2 l a) l.
Proof.
  revert a. induction l as [|b l IH]; intro a; simpl.
  - split; [apply Qcle_refl | constructor].
  - destruct (IH (Np.max2 a b)) as [H1 H2]. split.
    + eapply Qcle_trans; [apply max2_ge_l | exact H1].
    + constructor; [|exact H2].
      eapply Qcle_trans; [apply max2_ge_r | exact H1].
Qed.

Lemma max_bounds (x : list Qc) (m : Qc) :
  Np.max x = Ok m -> Forall (fun v => v <= m) x.
Proof.
  destruct x as [|a x]; simpl; [discriminate|].
  intros [= <-]. destruct (fold_max2_ge x a) as [H1 H2].
  constructor; assumption.
Qed.

Lemma max_abs_bounds (x : list Qc) (m : Qc) :
  Np.max (Np.abs x) = Ok m -> Forall (fun v => Qcabs v <= m) x.
Proof.
  intro H. apply max_bounds in H. unfold Np.abs in H.
  rewrite Forall_map in H. exact H.
Qed.

Lemma Qcinv_pos (m : Qc) : 0 < m -> 0 < / m.
Proof.
  intro H. qc_to_q. apply Qinv_lt_0_compat. exact H.
Qed.

Lemma Qcdiv_self (m : Qc) : 0 < m -> m / m = 1.
Proof.
  intro H. unfold Qcdiv. apply Qcmult_inv_r.
  intro E. subst m. revert H. apply Qcle_not_lt, Qcle_refl.
Qed.

Lemma Qcdiv_le_compat (a b m : Qc) : 0 < m -> a <= b -> a / m <= b / m.
Proof.
  intros Hm H. unfold Qcdiv.
  apply Qcmult_le_compat_r; [exact H|].
  apply Qclt_le_weak, Qcinv_pos, Hm.
Qed.

Lemma Qcabs_div (v m : Qc) : 0 < m -> Qcabs (v / m) = Qcabs v / m.
Proof.
  intro Hm. unfold Qcdiv. rewrite Qcabs_Qcmult. f_equal.
  apply Qcabs_pos, Qclt_le_weak, Qcinv_pos, Hm.
Qed.

Lemma max2_div (a b m : Qc) :
  0 < m -> Np.max2 (a / m) (b / m) = Np.max2 a b / m.
Proof.
  intro Hm. unfold Np.max2.
  destruct (Py.leb a b) eqn:E.
  - apply leb_le in E.
    apply (Qcdiv_le_compat _ _ m Hm), leb_le in E. rewrite E. reflexivity.
  - destruct (Py.leb (a / m) (b / m)) eqn:E'; [|reflexivity].
    apply leb_gt, Qclt_le_weak in E. apply leb_le in E'.
    apply (Qcdiv_le_compat _ _ m Hm) in E.
    apply Qcle_antisym; assumption.
Qed.

Lemma fold_max2_div (l : list Qc) (a m : Qc) :
  0 < m ->
  fold_left Np.max2 (map (fun v => v / m) l) (a / m)
    = fold_left Np.max2 l a / m.
Proof.
  intro Hm. revert a. induction l as [|b l IH]; intro a; simpl.
  - reflexivity.
  - rewrite max2_div by exact Hm. apply IH.
Qed.

Lemma abs_div (x : list Qc) (m : Qc) :
  0 < m -> Np.abs (Np.div x m) = Np.div (Np.abs x) m.
Proof.
  intro Hm. unfold Np.abs, Np.div. rewrite !map_map.
  apply map_ext. intro v. apply Qcabs_div, Hm.
Qed.

(** Dividing an array by its positive peak brings the peak to one. *)
Lemma peak_after_rescale (x : list Qc) (m : Qc) :
  0 < m -> Np.max (Np.abs x) = Ok m ->
  Np.max (Np.abs (Np.div x m)) = Ok 1.
Proof.
  intros Hm H. rewrite abs_div by exact Hm.
  destruct (Np.abs x) as [|a l]; [discriminate|].
  unfold Np.div. cbn [map Np.max] in *.
  injection H as H. f_equal.
  rewrite fold_max2_div by exact Hm. rewrite H. apply Qcdiv_self, Hm.
Qed.

Lemma rescale_bounded (x : list Qc) (m : Qc) :
  0 < m -> Forall (fun v => Qcabs v <= m) x ->
  Forall (fun v => Qcabs v <= 1) (Np.div x m).
Proof.
  intros Hm H. unfold Np.div. rewrite Forall_map.
  eapply Forall_impl; [|exact H]. simpl. intros v Hv.
  rewrite Qcabs_div by exact Hm.
  rewrite <- (Qcdiv_self m Hm). apply Qcdiv_le_compat; assumption.
Qed.

Lemma Qclt_0_1 : 0 < 1.
Proof. reflexivity. Qed.

(** ** Band edges of the enhancer *)

Lemma truediv_ok (a b q : Qc) :
  Py.truediv a b = Ok q -> b <> 0 /\ q = a / b.
Proof.
  unfold Py.truediv. destruct (Qc_eq_bool b 0) eqn:E; [discriminate|].
  intros [= <-]. split; [apply Qc_eq_bool_false, E | reflexivity].
Qed.

Lemma truediv_nonzero (a b : Qc) : b <> 0 -> Py.truediv a b = Ok (a / b).
Proof.
  intro H. unfold Py.truediv.
  apply Qc_eq_bool_false in H. rewrite H. reflexivity.
Qed.

Lemma this_nonzero (x : Qc) : x <> 0 -> ~ (this x == 0)%Q.
Proof.
  intros H E. apply H, Qc_is_canon. exact E.
Qed.

Lemma this_nyquist (sr : Z) :
  (this (Py.of_Z sr / Py.lit 2 1) == inject_Z sr * (1 # 2))%Q.
Proof. qc_to_q. reflexivity. Qed.

Lemma this_div (a b : Qc) : (this (a / b) == a * / b)%Q.
Proof. qc_to_q. reflexivity. Qed.

(** The upper edge [5000 / nyquist] is a proper digital frequency only
    above 10 kHz. *)
Lemma upper_edge_out_of_range (sr : Z) :
  (sr <= 10000)%Z -> Py.of_Z sr / Py.lit 2 1 <> 0 ->
  ~ (0 < Py.lit 5000 1 / (Py.of_Z sr / Py.lit 2 1) < 1).
Proof.
  intros Hsr Hn [Hpos Hlt]. apply this_nonzero in Hn.
  unfold Qclt in Hpos, Hlt. rewrite this_div, this_lit in Hpos, Hlt.
  change (this 0) with 0%Q in Hpos. change (this 1) with 1%Q in Hlt.
  rewrite this_nyquist in *.
  assert (Hs : (inject_Z sr <= 10000)%Q).
  { change 10000%Q with (inject_Z 10000). rewrite <- Zle_Qle. exact Hsr. }
  set (n := (inject_Z sr * (1 # 2))%Q) in *.
  assert (Hn5 : (n <= 5000)%Q) by (unfold n; lra).
  assert (E : (n * / n == 1)%Q) by (apply Qmult_inv_r; exact Hn).
  set (i := (/ n)%Q) in *. clearbody i. clearbody n.
  nra.
Qed.

Lemma band_edges_in_range (sr : Z) :
  (10000 < sr)%Z ->
  Sig.check_band (Py.lit 60 1 / (Py.of_Z sr / Py.lit 2 1))
                 (Py.lit 5000 1 / (Py.of_Z sr / Py.lit 2 1)) = Ok tt.
Proof.
  intro Hsr.
  assert (Hs : (10000 < inject_Z sr)%Q).
  { change 10000%Q with (inject_Z 10000). rewrite <- Zlt_Qlt. exact Hsr. }
  set (nyq := Py.of_Z sr / Py.lit 2 1).
  assert (Hn : (5000 < this nyq)%Q).
  { unfold nyq. rewrite this_nyquist. lra. }
  assert (Hi : (0 < / this nyq)%Q) by (apply Qinv_lt_0_compat; lra).
  assert (E : (this nyq * / this nyq == 1)%Q).
  { apply Qmult_inv_r. intro Z. rewrite Z in Hn. lra. }
  assert (Hlow : 0 < Py.lit 60 1 / nyq).
  { unfold Qclt. rewrite this_div, this_lit. change (this 0) with 0%Q.
    set (i := (/ this nyq)%Q) in *. clearbody i. lra. }
  assert (Hord : Py.lit 60 1 / nyq < Py.lit 5000 1 / nyq).
  { unfold Qclt. rewrite !this_div, !this_lit.
    set (i := (/ this nyq)%Q) in *. clearbody i. lra. }
  assert (Hhigh : Py.lit 5000 1 / nyq < 1).
  { unfold Qclt. rewrite this_div, this_lit. change (this 1) with 1%Q.
    set (i := (/ this nyq)%Q) in *. set (n := this nyq) in *.
    clearbody i. clearbody n. nra. }
  unfold Sig.check_band.
  rewrite (proj2 (leb_gt _ _) Hlow).
  rewrite (proj2 (leb_gt _ _) (Qclt_trans _ _ _ Hlow Hord)).
  rewrite (proj2 (ltb_lt _ _) Hord).
  rewrite (proj2 (leb_gt _ _) (Qclt_trans _ _ _ Hord Hhigh)).
  rewrite (proj2 (leb_gt _ _) Hhigh).
  reflexivity.
Qed.

Lemma nyquist_nonzero (sr : Z) : sr <> 0%Z -> Py.of_Z sr / Py.lit 2 1 <> 0.
Proof.
  intros H E. apply (f_equal this) in E.
  assert (Q : (this (Py.of_Z sr / Py.lit 2 1) == 0)%Q) by (rewrite E; reflexivity).
  rewrite this_nyquist in Q.
  assert (Z0 : (inject_Z sr == inject_Z 0)%Q) by (change (inject_Z 0) with 0%Q; lra).
  apply H. apply inject_Z_injective. exact Z0.
Qed.

Lemma band_edges_out_of_range (sr : Z) :
  (sr <= 10000)%Z -> sr <> 0%Z ->
  Sig.check_band (band_edge 60 sr) (band_edge 5000 sr) = Err ValueError.
Proof.
  intros Hsr Hnz. unfold Sig.check_band.
  destruct (Py.leb (band_edge 60 sr) 0 || Py.leb (band_edge 5000 sr) 0)
    eqn:E1; [reflexivity|].
  destruct (negb (Py.ltb (band_edge 60 sr) (band_edge 5000 sr)));
    [reflexivity|].
  destruct (Py.leb 1 (band_edge 60 sr) || Py.leb 1 (band_edge 5000 sr))
    eqn:E3; [reflexivity|].
  exfalso. apply orb_false_elim in E1, E3.
  destruct E1 as [_ E1]. destruct E3 as [_ E3].
  apply leb_gt in E1, E3.
  apply (upper_edge_out_of_range sr Hsr (nyquist_nonzero sr Hnz)).
  split; assumption.
Qed.

(** ** Lengths through the filters *)

Lemma lfilter_length (c : biquad) (x : list Qc) (z0 z1 : Qc) :
  length (Sig.lfilter c z0 z1 x) = length x.
Proof.
  revert z0 z1. induction x as [|v x IH]; intros z0 z1; simpl.
  - reflexivity.
  - f_equal. apply IH.
Qed.

Lemma sosfilt_length (sos : list biquad) (x : list Qc) :
  length (Sig.sosfilt sos x) = length x.
Proof.
  unfold Sig.sosfilt. revert x.
  induction sos as [|c sos IH]; intro x; simpl.
  - reflexivity.
  - rewrite IH. apply lfilter_length.
Qed.

Lemma add_length (x y : list Qc) :
  length (Np.add x y) = Nat.min (length x) (length y).
Proof.
  revert y. induction x as [|a x IH]; intros [|b y]; simpl; auto.
Qed.

Lemma scale_length (x : list Qc) (c : Qc) : length (Np.scale x c) = length x.
Proof. apply length_map. Qed.

Lemma mixed_length (band_design : nat -> Qc -> Qc -> list biquad)
    (s : list Qc) (sr : Z) :
  length (mixed band_design s sr) = length s.
Proof.
  unfold mixed. rewrite add_length, scale_length, sosfilt_length.
  apply Nat.min_id.
Qed.

Lemma max_nonempty (x : list Qc) : x <> [] -> returns (Np.max (Np.abs x)).
Proof.
  destruct x as [|a x]; [congruence|]. intros _. eexists. reflexivity.
Qed.

(** ** Band enhancer *)

Section EnhanceFacts.

Variable band_design : nat -> Qc -> Qc -> list biquad.

(** Above 10 kHz the enhancer reaches the peak test on the mixed signal. *)
Lemma enhance_in_range (s : list Qc) (sr : Z) :
  (10000 < sr)%Z ->
  enhance_guitar_frequencies band_design s sr =
    (max_val <- Np.max (Np.abs (mixed band_design s sr)) ;;
     if Py.ltb 1 max_val
     then Ok (Np.div (mixed band_design s sr) max_val)
     else Ok (mixed band_design s sr)).
Proof.
  intro Hsr. unfold enhance_guitar_frequencies, butter.
  rewrite !truediv_nonzero by (apply nyquist_nonzero; lia).
  cbn [bind].
  pose proof (band_edges_in_range sr Hsr) as B.
  unfold band_edge in *. rewrite B. reflexivity.
Qed.

Lemma enhance_out_of_range (s : list Qc) (sr : Z) :
  (sr <= 10000)%Z -> sr <> 0%Z ->
  enhance_guitar_frequencies band_design s sr = Err ValueError.
Proof.
  intros Hsr Hnz. unfold enhance_guitar_frequencies, butter.
  rewrite !truediv_nonzero by (apply nyquist_nonzero; exact Hnz).
  cbn [bind].
  pose proof (band_edges_out_of_range sr Hsr Hnz) as B.
  unfold band_edge in B. rewrite B. reflexivity.
Qed.

Lemma enhance_zero_rate (s : list Qc) :
  enhance_guitar_frequencies band_design s 0 = Err ZeroDivisionError.
Proof. reflexivity. Qed.

Lemma enhance_result (s : list Qc) (sr : Z) (out : list Qc) :
  enhance_guitar_frequencies band_design s sr = Ok out ->
  exists max_val,
    Np.max (Np.abs (mixed band_design s sr)) = Ok max_val /\
    out = if Py.ltb 1 max_val
          then Np.div (mixed band_design s sr) max_val
          else mixed band_design s sr.
Proof.
  destruct (Z_lt_le_dec 10000 sr) as [Hsr | Hsr].
  - rewrite (enhance_in_range s sr Hsr).
    destruct (Np.max (Np.abs (mixed band_design s sr))) as [m|e];
      cbn [bind]; [|discriminate].
    intro H. exists m. split; [reflexivity|].
    destruct (Py.ltb 1 m); congruence.
  - destruct (Z.eq_dec sr 0) as [-> | Hnz].
    + rewrite enhance_zero_rate. discriminate.
    + rewrite (enhance_out_of_range s sr Hsr Hnz). discriminate.
Qed.

End EnhanceFacts.

(** C3, as stated, fails: at 8000 Hz the upper band edge is 5000 / 4000,
    the filter design is refused, and no signal is returned. *)
Lemma enhance_8000_raises :
  enhance_guitar_frequencies band_design_flat
    (q_list [1; 0; -1; 0]%Z) 8000 = Err ValueError.
Proof. vm_compute. reflexivity. Qed.

(** C3, amended. For every non-empty mono signal and every sample rate
    above 10000 Hz the enhancer returns [original + 0.4 * filtered], where
    [filtered] is the signal through the designed order-4 band-pass
    cascade for 60-5000 Hz; if the peak of the mix exceeds one the mix is
    divided by that peak, and the peak of the result is then exactly one;
    otherwise the mix is returned untouched. *)
Theorem enhance_mix_and_normalise
    (band_design : nat -> Qc -> Qc -> list biquad)
    (s : list Qc) (sr : Z) :
  (10000 < sr)%Z -> s <> [] ->
  exists peak,
    Np.max (Np.abs (mixed band_design s sr)) = Ok peak /\
    enhance_guitar_frequencies band_design s sr =
      Ok (if Py.ltb 1 peak
          then Np.div (mixed band_design s sr) peak
          else mixed band_design s sr) /\
    (1 < peak ->
     Np.max (Np.abs (Np.div (mixed band_design s sr) peak)) = Ok 1).
Proof.
  intros Hsr Hs.
  assert (Hm : mixed band_design s sr <> []).
  { intro E. apply (f_equal (@length Qc)) in E.
    rewrite mixed_length in E. destruct s; [congruence | discriminate]. }
  destruct (max_nonempty _ Hm) as [peak Hp].
  exists peak. split; [exact Hp|]. split.
  - rewrite (enhance_in_range band_design s sr Hsr), Hp. cbn [bind].
    destruct (Py.ltb 1 peak); reflexivity.
  - intro H1. apply peak_after_rescale; [|exact Hp].
    eapply Qclt_trans; [apply Qclt_0_1 | exact H1].
Qed.

Lemma enhance_mix_and_normalise_witness :
  exists peak,
    Np.max (Np.abs (mixed band_design_flat (q_list [1; 0; -1; 0]%Z) 22050))
      = Ok peak /\
    enhance_guitar_frequencies band_design_flat
        (q_list [1; 0; -1; 0]%Z) 22050 =
      Ok (if Py.ltb 1 peak
          then Np.div (mixed band_design_flat (q_list [1; 0; -1; 0]%Z) 22050)
                 peak
          else mixed band_design_flat (q_list [1; 0; -1; 0]%Z) 22050) /\
    (1 < peak ->
     Np.max
       (Np.abs
          (Np.div (mixed band_design_flat (q_list [1; 0; -1; 0]%Z) 22050)
             peak)) = Ok 1).
Proof.
  apply (enhance_mix_and_normalise band_design_flat).
  - reflexivity.
  - discriminate.
Defined.

(** C4. Whatever the input, every sample the enhancer returns has
    absolute value at most one. *)
Theorem enhance_output_within_unit
    (band_design : nat -> Qc -> Qc -> list biquad)
    (s : list Qc) (sr : Z) (out : list Qc) :
  enhance_guitar_frequencies band_design s sr = Ok out ->
  within 1 out.
Proof.
  intro H. apply enhance_result in H. destruct H as [m [Hm ->]].
  pose proof (max_abs_bounds _ _ Hm) as B.
  destruct (Py.ltb 1 m) eqn:L.
  - apply ltb_lt in L. apply rescale_bounded; [|exact B].
    eapply Qclt_trans; [apply Qclt_0_1 | exact L].
  - apply ltb_ge in L. unfold within.
    eapply Forall_impl; [|exact B]. simpl. intros v Hv.
    eapply Qcle_trans; eassumption.
Qed.

Lemma enhance_output_within_unit_witness :
  exists out,
    enhance_guitar_frequencies band_design_flat
      (q_list [1; 0; -1; 0]%Z) 22050 = Ok out /\
    within 1 out.
Proof.
  assert (E : returns (enhance_guitar_frequencies band_design_flat
                         (q_list [1; 0; -1; 0]%Z) 22050))
    by (eexists; vm_compute; reflexivity).
  destruct E as [out E]. exists out. split; [exact E|].
  exact (enhance_output_within_unit band_design_flat _ _ _ E).
Defined.

(** C10. At every sample rate of 10000 Hz or less the enhancer raises for
    every input: the band edge 5000 / (sr / 2) is not below one (and for
    [sr <= 0] the edges are not positive, or the division fails). *)
Theorem enhance_raises_up_to_10000
    (band_design : nat -> Qc -> Qc -> list biquad)
    (s : list Qc) (sr : Z) :
  (sr <= 10000)%Z ->
  raises (enhance_guitar_frequencies band_design s sr).
Proof.
  intro Hsr. destruct (Z.eq_dec sr 0) as [-> | Hnz].
  - exists ZeroDivisionError. apply enhance_zero_rate.
  - exists ValueError. apply enhance_out_of_range; assumption.
Qed.

Lemma enhance_raises_up_to_10000_witness :
  raises (enhance_guitar_frequencies band_design_flat
            (q_list [1; 0; -1; 0]%Z) 8000).
Proof.
  apply (enhance_raises_up_to_10000 band_design_flat). lia.
Defined.

(** ** Zero-phase filter: when it returns, and with what length *)

Lemma odd_ext_length (x : list Qc) (n : nat) :
  (n < length x)%nat -> length (Sig.odd_ext x n) = (n + length x + n)%nat.
Proof.
  intro H. unfold Sig.odd_ext.
  rewrite !length_app, !length_map, length_rev, !length_firstn.
  assert (L1 : length (tl x) = (length x - 1)%nat)
    by (destruct x; simpl; lia).
  assert (L2 : length (tl (rev x)) = (length x - 1)%nat).
  { rewrite <- (length_rev x). destruct (rev x); simpl; lia. }
  rewrite L1, L2. lia.
Qed.

Lemma Ok_inj {A : Type} (a b : A) : Ok a = Ok b -> a = b.
Proof. congruence. Qed.

Lemma filtfilt_inv (c : biquad) (x y : list Qc) :
  Sig.filtfilt c x = Ok y ->
  (Sig.edge < length x)%nat /\ returns (Sig.lfilter_zi c) /\
  length y = length x.
Proof.
  unfold Sig.filtfilt.
  destruct (length x <=? Sig.edge)%nat eqn:E; [discriminate|].
  apply Nat.leb_gt in E.
  destruct (Sig.lfilter_zi c) as [zi|e]; unfold bind; [|discriminate].
  cbv zeta. intro H. apply Ok_inj in H. subst y.
  split; [exact E|]. split; [eexists; reflexivity|].
  rewrite length_firstn, length_skipn, !length_rev, !lfilter_length.
  rewrite length_rev, lfilter_length, odd_ext_length by exact E.
  unfold Sig.edge in *. lia.
Qed.

Lemma filtfilt_returns (c : biquad) (x : list Qc) :
  (Sig.edge < length x)%nat -> returns (Sig.lfilter_zi c) ->
  returns (Sig.filtfilt c x).
Proof.
  intros E [zi Z]. unfold Sig.filtfilt.
  apply Nat.leb_gt in E. rewrite E, Z. cbn [bind].
  eexists. reflexivity.
Qed.

Lemma filtfilt_short (c : biquad) (x : list Qc) :
  (length x <= Sig.edge)%nat -> Sig.filtfilt c x = Err ValueError.
Proof.
  intro E. unfold Sig.filtfilt. apply Nat.leb_le in E. rewrite E.
  reflexivity.
Qed.

Lemma delayed_length (s : list Qc) (d : nat) :
  (d <= length s)%nat -> length (delayed s d) = length s.
Proof.
  intro H. unfold delayed.
  rewrite length_app, repeat_length, length_firstn. lia.
Qed.

(** ** Silence *)

Lemma silent_hd (x : list Qc) : silent x -> hd 0 x = 0.
Proof. intros [|v x' H _]; [reflexivity | exact H]. Qed.

Lemma silent_last (x : list Qc) : silent x -> last x 0 = 0.
Proof.
  intro H. induction H as [|v x' Hv _ IH]; [reflexivity|].
  destruct x'; [exact Hv | exact IH].
Qed.

Lemma silent_app (x y : list Qc) : silent x -> silent y -> silent (x ++ y).
Proof. intros Hx Hy. apply Forall_app. split; assumption. Qed.

Lemma silent_rev (x : list Qc) : silent x -> silent (rev x).
Proof. apply Forall_rev. Qed.

Lemma silent_firstn (x : list Qc) (n : nat) : silent x -> silent (firstn n x).
Proof.
  intro H. unfold silent in *.
  rewrite <- (firstn_skipn n x) in H. apply Forall_app in H. apply H.
Qed.

Lemma silent_skipn (x : list Qc) (n : nat) : silent x -> silent (skipn n x).
Proof.
  intro H. unfold silent in *.
  rewrite <- (firstn_skipn n x) in H. apply Forall_app in H. apply H.
Qed.

Lemma silent_tl (x : list Qc) : silent x -> silent (tl x).
Proof. intros [|v x' _ H]; [constructor | exact H]. Qed.

Lemma silent_repeat (n : nat) : silent (repeat 0 n).
Proof.
  apply Forall_forall. intros v H. apply repeat_spec in H. exact H.
Qed.

Lemma silent_eq (x y : list Qc) :
  silent x -> silent y -> length x = length y -> x = y.
Proof.
  intro Hx. revert y. induction Hx as [|v x' Hv _ IH];
    intros y Hy L; destruct Hy as [|w y' Hw Hy']; try discriminate.
  - reflexivity.
  - simpl in L. injection L as L. subst v w. f_equal. apply IH; assumption.
Qed.

Lemma silent_map (g : Qc -> Qc) (x : list Qc) :
  g 0 = 0 -> silent x -> silent (map g x).
Proof.
  intros G H. unfold silent. rewrite Forall_map.
  eapply Forall_impl; [|exact H]. simpl. intros v ->. exact G.
Qed.

Lemma silent_scale (x : list Qc) (c : Qc) : silent x -> silent (Np.scale x c).
Proof. apply silent_map. ring. Qed.

Lemma silent_div (x : list Qc) (c : Qc) : silent x -> silent (Np.div x c).
Proof. apply silent_map. unfold Qcdiv. ring. Qed.

Lemma silent_add (x y : list Qc) : silent x -> silent y -> silent (Np.add x y).
Proof.
  intro Hx. revert y. induction Hx as [|v x' Hv _ IH]; intros y Hy.
  - constructor.
  - destruct Hy as [|w y' Hw Hy']; simpl; [constructor|].
    constructor; [subst; ring | apply IH, Hy'].
Qed.

(** A filter at rest fed with silence stays at rest. *)
Lemma lfilter_silent (c : biquad) (x : list Qc) :
  silent x -> silent (Sig.lfilter c 0 0 x).
Proof.
  intro H. induction H as [|v x' Hv _ IH]; simpl; [constructor|].
  subst v.
  replace (b0 c * 0 + 0) with 0 by ring.
  replace (b1 c * 0 - a1 c * 0 + 0) with 0 by ring.
  replace (b2 c * 0 - a2 c * 0) with 0 by ring.
  constructor; [reflexivity | exact IH].
Qed.

Lemma sosfilt_silent (sos : list biquad) (x : list Qc) :
  silent x -> silent (Sig.sosfilt sos x).
Proof.
  unfold Sig.sosfilt. revert x.
  induction sos as [|c sos IH]; intros x H; simpl; [exact H|].
  apply IH, lfilter_silent, H.
Qed.

Lemma odd_ext_silent (x : list Qc) (n : nat) :
  silent x -> silent (Sig.odd_ext x n).
Proof.
  intro H. unfold Sig.odd_ext.
  rewrite (silent_hd x H), (silent_last x H).
  repeat apply silent_app; try exact H.
  - apply silent_map; [ring|]. apply silent_rev, silent_firstn, silent_tl, H.
  - apply silent_map; [ring|]. apply silent_firstn, silent_tl, silent_rev, H.
Qed.

Lemma filtfilt_silent (c : biquad) (x y : list Qc) :
  silent x -> Sig.filtfilt c x = Ok y -> silent y.
Proof.
  intros H. unfold Sig.filtfilt.
  destruct (length x <=? Sig.edge)%nat; [discriminate|].
  destruct (Sig.lfilter_zi c) as [zi|e]; unfold bind; [|discriminate].
  cbv zeta. intro E. apply Ok_inj in E. subst y.
  pose proof (odd_ext_silent x Sig.edge H) as He.
  rewrite (silent_hd _ He).
  replace (fst zi * 0) with 0 by ring.
  replace (snd zi * 0) with 0 by ring.
  pose proof (lfilter_silent c _ He) as H1.
  rewrite (silent_last _ H1).
  replace (fst zi * 0) with 0 by ring.
  replace (snd zi * 0) with 0 by ring.
  apply silent_firstn, silent_skipn, silent_rev, lfilter_silent, silent_rev.
  exact H1.
Qed.

(** ** Stereo widener *)

Section WidenFacts.

Variable lowpass_ba : biquad.

(** The rank-one branch, with the delay named. *)
Lemma widen_mono_unfold (s : list Qc) (sr : Z) :
  mono_to_stereo_effect lowpass_ba (Arr1 s) sr =
    (head <- Np.zeros (delay_of sr) ;;
     y <- Sig.filtfilt lowpass_ba (head ++ Np.slice_to_neg s (delay_of sr)) ;;
     Np.vstack (Np.scale s (Py.lit 95 100)) (Np.scale y (Py.lit 85 100))).
Proof. reflexivity. Qed.

Lemma widen_mono_inv (s : list Qc) (sr : Z) (out : ndarray) :
  mono_to_stereo_effect lowpass_ba (Arr1 s) sr = Ok out ->
  (0 < delay_of sr)%Z /\
  exists y,
    Sig.filtfilt lowpass_ba (delayed s (Z.to_nat (delay_of sr))) = Ok y /\
    length y = length s /\
    out = Arr2 [Np.scale s (Py.lit 95 100); Np.scale y (Py.lit 85 100)].
Proof.
  rewrite widen_mono_unfold. unfold Np.zeros, Np.slice_to_neg.
  destruct (delay_of sr <? 0)%Z eqn:Neg; cbn [bind]; [discriminate|].
  apply Z.ltb_ge in Neg.
  destruct (delay_of sr =? 0)%Z eqn:Zero.
  - apply Z.eqb_eq in Zero. rewrite Zero. simpl repeat.
    rewrite filtfilt_short by (simpl; unfold Sig.edge; lia).
    discriminate.
  - apply Z.eqb_neq in Zero.
    fold (delayed s (Z.to_nat (delay_of sr))).
    destruct (Sig.filtfilt lowpass_ba (delayed s (Z.to_nat (delay_of sr))))
      as [y|e] eqn:F; cbn [bind]; [|discriminate].
    unfold Np.vstack. rewrite !scale_length.
    destruct (length s =? length y)%nat eqn:L; [|discriminate].
    apply Nat.eqb_eq in L. intros [= <-].
    split; [lia|]. exists y. auto.
Qed.

Lemma widen_mono_regular (s y : list Qc) (sr : Z) :
  (0 < delay_of sr <= Z.of_nat (length s))%Z ->
  Sig.filtfilt lowpass_ba (delayed s (Z.to_nat (delay_of sr))) = Ok y ->
  mono_to_stereo_effect lowpass_ba (Arr1 s) sr =
    Ok (Arr2 [Np.scale s (Py.lit 95 100); Np.scale y (Py.lit 85 100)]).
Proof.
  intros [Hd Hn] F. rewrite widen_mono_unfold.
  unfold Np.zeros, Np.slice_to_neg.
  rewrite (proj2 (Z.ltb_ge _ _)) by lia.
  rewrite (proj2 (Z.eqb_neq _ _)) by lia.
  cbn [bind]. fold (delayed s (Z.to_nat (delay_of sr))). rewrite F.
  cbn [bind]. unfold Np.vstack. rewrite !scale_length.
  apply filtfilt_inv in F. destruct F as [_ [_ L]].
  rewrite delayed_length in L by lia.
  rewrite L, Nat.eqb_refl. reflexivity.
Qed.

Lemma widen_mono_returns (s : list Qc) (sr : Z) :
  (0 < delay_of sr <= Z.of_nat (length s))%Z ->
  (Sig.edge < length s)%nat ->
  returns (Sig.lfilter_zi lowpass_ba) ->
  returns (mono_to_stereo_effect lowpass_ba (Arr1 s) sr).
Proof.
  intros Hd Hn Hz.
  destruct (filtfilt_returns lowpass_ba
              (delayed s (Z.to_nat (delay_of sr)))) as [y F].
  - rewrite delayed_length by lia. exact Hn.
  - exact Hz.
  - eexists. apply (widen_mono_regular s y sr Hd F).
Qed.

(** A clip shorter than the delay: the right channel comes out as long as
    the delay, and the two rows cannot be stacked. *)
Lemma widen_shorter_than_delay (s : list Qc) (sr : Z) :
  (Z.of_nat (length s) < delay_of sr)%Z ->
  raises (mono_to_stereo_effect lowpass_ba (Arr1 s) sr).
Proof.
  intro H.
  destruct (mono_to_stereo_effect lowpass_ba (Arr1 s) sr) as [out|e] eqn:E;
    [|eexists; reflexivity].
  apply widen_mono_inv in E. destruct E as [_ [y [F [L _]]]].
  apply filtfilt_inv in F. destruct F as [_ [_ L']].
  unfold delayed in L'. rewrite length_app, repeat_length, length_firstn in L'.
  lia.
Qed.

(** A delay of zero samples: [x[:-0]] is empty, and so is the right
    channel handed to the filter. *)
Lemma widen_zero_delay (s : list Qc) (sr : Z) :
  delay_of sr = 0%Z ->
  mono_to_stereo_effect lowpass_ba (Arr1 s) sr = Err ValueError.
Proof.
  intro H. rewrite widen_mono_unfold. rewrite H. reflexivity.
Qed.

Lemma widen_two_rows (rows : list (list Qc)) (sr : Z) :
  length rows = 2%nat ->
  mono_to_stereo_effect lowpass_ba (Arr2 rows) sr = Ok (Arr2 rows).
Proof.
  intro H. unfold mono_to_stereo_effect. rewrite H. reflexivity.
Qed.

Lemma widen_other_rows (rows : list (list Qc)) (sr : Z) :
  length rows <> 2%nat ->
  mono_to_stereo_effect lowpass_ba (Arr2 rows) sr = Err ValueError.
Proof.
  intro H. unfold mono_to_stereo_effect.
  apply Nat.eqb_neq in H. rewrite H. unfold Np.zeros.
  destruct (_ <? 0)%Z; reflexivity.
Qed.

End WidenFacts.

Lemma channels_equal_spec (out : result ndarray) :
  channels_equal out = true ->
  exists l r, out = Ok (Arr2 [l; r]) /\ l = r.
Proof.
  unfold channels_equal.
  destruct out as [[v | [|l [|r [|x rows]]]] | e]; try discriminate.
  destruct (list_eq_dec Qc_eq_dec l r) as [E | _]; [|discriminate].
  intros _. exists l, r. split; [reflexivity | exact E].
Qed.

Lemma right_exceeds_unit_spec (out : result ndarray) (i : nat) :
  right_exceeds_unit out i = true ->
  exists l r, out = Ok (Arr2 [l; r]) /\ 1 < Qcabs (nth i r 0).
Proof.
  unfold right_exceeds_unit.
  destruct out as [[v | [|l [|r [|x rows]]]] | e]; try discriminate.
  intro H. exists l, r. split; [reflexivity | apply ltb_lt, H].
Qed.

Lemma not_within_nth (x : list Qc) (i : nat) (bound : Qc) :
  bound < Qcabs (nth i x 0) -> 0 <= bound -> ~ within bound x.
Proof.
  intros H Hb W. unfold within in W. rewrite Forall_forall in W.
  destruct (Nat.lt_ge_cases i (length x)) as [L | L].
  - apply (Qclt_not_le _ _ H), W, nth_In, L.
  - rewrite nth_overflow in H by exact L.
    apply (Qclt_not_le _ _ H). exact Hb.
Qed.

(** C5, at a failing input. A mono clip of 100 samples at 22050 Hz is
    shorter than the 330-sample delay: the right channel is built 330
    samples long, not 100, and stacking it under the left channel
    raises instead of giving a delayed channel of the input's length. *)
Theorem widen_short_clip_raises :
  delay_of 22050 = 330%Z /\
  length (repeat 0 330 ++ Np.slice_to_neg (repeat (Py.lit 1 2) 100) 330)
    = 330%nat /\
  mono_to_stereo_effect butter2_half
    (Arr1 (repeat (Py.lit 1 2) 100)) 22050 = Err ValueError.
Proof. repeat split; vm_compute; reflexivity. Qed.

(** C7. An input of two channels is returned unchanged; hence widening
    twice is widening once, for every input. *)
Theorem widen_stereo_passthrough (lowpass_ba : biquad) (sr : Z) :
  (forall rows,
     length rows = 2%nat ->
     mono_to_stereo_effect lowpass_ba (Arr2 rows) sr = Ok (Arr2 rows)) /\
  (forall audio_data,
     (x <- mono_to_stereo_effect lowpass_ba audio_data sr ;;
      mono_to_stereo_effect lowpass_ba x sr)
     = mono_to_stereo_effect lowpass_ba audio_data sr).
Proof.
  split.
  - intros rows H. apply widen_two_rows, H.
  - intros [s | rows].
    + destruct (mono_to_stereo_effect lowpass_ba (Arr1 s) sr)
        as [out|e] eqn:E; cbn [bind]; [|reflexivity].
      apply widen_mono_inv in E. destruct E as [_ [y [_ [_ ->]]]].
      apply widen_two_rows. reflexivity.
    + destruct (Nat.eq_dec (length rows) 2) as [H | H].
      * rewrite (widen_two_rows lowpass_ba rows sr H). cbn [bind].
        apply widen_two_rows, H.
      * rewrite (widen_other_rows lowpass_ba rows sr H). reflexivity.
Qed.

Lemma widen_stereo_passthrough_witness :
  mono_to_stereo_effect butter2_half
    (Arr2 [q_list [1; 0; -1]%Z; q_list [0; 1; 0]%Z]) 22050
  = Ok (Arr2 [q_list [1; 0; -1]%Z; q_list [0; 1; 0]%Z]).
Proof.
  apply (proj1 (widen_stereo_passthrough butter2_half 22050)).
  reflexivity.
Defined.

(** ** The two channels of a returned frame *)

Lemma this_eq (x y : Qc) : x = y -> (this x == this y)%Q.
Proof. intros ->. reflexivity. Qed.

Lemma this_mult (x y : Qc) : (this (x * y) == this x * this y)%Q.
Proof. apply this_Q2Qc. Qed.

Lemma this_plus (x y : Qc) : (this (x + y) == this x + this y)%Q.
Proof. apply this_Q2Qc. Qed.

(** From rest, a filter answers silence with silence and stays at rest. *)
Lemma lfilter_zero_prefix (c : biquad) (k : nat) (x : list Qc) :
  Sig.lfilter c 0 0 (repeat 0 k ++ x) = repeat 0 k ++ Sig.lfilter c 0 0 x.
Proof.
  induction k as [|k IH]; [reflexivity|].
  cbn [repeat app Sig.lfilter].
  replace (b0 c * 0 + 0) with 0 by ring.
  replace (b1 c * 0 - a1 c * 0 + 0) with 0 by ring.
  replace (b2 c * 0 - a2 c * 0) with 0 by ring.
  rewrite IH. reflexivity.
Qed.

(** The difference equation of the filter, from the third output on. *)
Lemma lfilter_recurrence (c : biquad) (j : nat) :
  forall (z0 z1 : Qc) (x : list Qc),
    (j + 2 < length x)%nat ->
    nth (j + 2) (Sig.lfilter c z0 z1 x) 0 =
      b0 c * nth (j + 2) x 0 + b1 c * nth (j + 1) x 0 + b2 c * nth j x 0
      - a1 c * nth (j + 1) (Sig.lfilter c z0 z1 x) 0
      - a2 c * nth j (Sig.lfilter c z0 z1 x) 0.
Proof.
  induction j as [|j IH]; intros z0 z1 x H.
  - destruct x as [|v0 [|v1 [|v2 x]]]; simpl in H; try lia.
    cbn [Sig.lfilter nth Nat.add]. ring.
  - destruct x as [|v x]; simpl in H; [lia|].
    cbn [Sig.lfilter].
    change (S j + 2)%nat with (S (j + 2)).
    change (S j + 1)%nat with (S (j + 1)).
    cbn [nth]. apply IH. lia.
Qed.

(** The same equation for the pass over the reversed signal: each output
    is tied to the two outputs after it. *)
Lemma backward_recurrence (c : biquad) (z0 z1 : Qc) (u : list Qc) (k : nat) :
  (k + 2 < length u)%nat ->
  nth k (rev (Sig.lfilter c z0 z1 (rev u))) 0 =
    b0 c * nth k u 0 + b1 c * nth (k + 1) u 0 + b2 c * nth (k + 2) u 0
    - a1 c * nth (k + 1) (rev (Sig.lfilter c z0 z1 (rev u))) 0
    - a2 c * nth (k + 2) (rev (Sig.lfilter c z0 z1 (rev u))) 0.
Proof.
  intro H.
  assert (L : length (Sig.lfilter c z0 z1 (rev u)) = length u)
    by (rewrite lfilter_length, length_rev; reflexivity).
  rewrite !rev_nth by (rewrite L; lia). rewrite L.
  replace (length u - S k)%nat with ((length u - 3 - k) + 2)%nat by lia.
  replace (length u - S (k + 1))%nat with ((length u - 3 - k) + 1)%nat by lia.
  replace (length u - S (k + 2))%nat with (length u - 3 - k)%nat by lia.
  rewrite lfilter_recurrence by (rewrite length_rev; lia).
  rewrite !rev_nth by lia.
  replace (length u - S (length u - 3 - k + 2))%nat with k by lia.
  replace (length u - S (length u - 3 - k + 1))%nat with (k + 1)%nat by lia.
  replace (length u - S (length u - 3 - k))%nat with (k + 2)%nat by lia.
  ring.
Qed.

(** After ten samples of silence the pad at the head is silent too. *)
Lemma odd_ext_after_silence (p : nat) (rest : list Qc) :
  exists pad,
    Sig.odd_ext (repeat 0 (10 + p) ++ rest) Sig.edge =
      repeat 0 (19 + p) ++ rest ++ pad.
Proof.
  unfold Sig.odd_ext, Sig.edge. eexists.
  cbn [Nat.add repeat app hd tl firstn rev map].
  replace (Py.lit 2 1 * 0 - 0) with 0 by ring.
  rewrite <- app_assoc. reflexivity.
Qed.

Lemma nth_scale (x : list Qc) (c : Qc) (i : nat) :
  nth i (Np.scale x c) 0 = nth i x 0 * c.
Proof.
  unfold Np.scale. revert i.
  induction x as [|v x IH]; intros [|i]; cbn [map nth]; try ring; auto.
Qed.

(** ** Divisibility by powers of two *)

Lemma of_Z_mul (a b : Z) : Py.of_Z (a * b) = Py.of_Z a * Py.of_Z b.
Proof.
  apply Qc_is_canon. rewrite this_mult, !of_Z_this, inject_Z_mult.
  reflexivity.
Qed.

Lemma of_Z_add (a b : Z) : Py.of_Z (a + b) = Py.of_Z a + Py.of_Z b.
Proof.
  apply Qc_is_canon. rewrite this_plus, !of_Z_this, inject_Z_plus.
  reflexivity.
Qed.

Lemma pow2_add (x y : Z) : pow2 (x + y) = pow2 x * pow2 y.
Proof.
  apply Qc_is_canon. unfold pow2. rewrite this_mult, !this_Q2Qc.
  apply Qpower_plus. discriminate.
Qed.

Lemma pow2_nonneg (z : Z) : (0 <= z)%Z -> pow2 z = Py.of_Z (2 ^ z).
Proof.
  intro H. apply Qc_is_canon. unfold pow2.
  rewrite this_Q2Qc, of_Z_this. symmetry.
  apply (Zpower_Qpower 2 z H).
Qed.

Lemma dy_zero (z : Z) : dyadic_ge 0 z.
Proof. exists 0%Z, 1%Z. split; [reflexivity|]. change (Py.of_Z 0) with 0. ring. Qed.

Lemma dy_add (x y : Qc) (z : Z) :
  dyadic_ge x z -> dyadic_ge y z -> dyadic_ge (x + y) z.
Proof.
  intros [a [t [Ht Hx]]] [a' [t' [Ht' Hy]]].
  exists (a * t' + a' * t)%Z, (t * t')%Z. split.
  - rewrite Z.odd_mul, Ht, Ht'. reflexivity.
  - rewrite of_Z_add, !of_Z_mul.
    transitivity (x * Py.of_Z t * Py.of_Z t' + y * Py.of_Z t' * Py.of_Z t);
      [ring|].
    rewrite Hx, Hy. ring.
Qed.

Lemma dy_mul (c x : Qc) (k z : Z) :
  dyadic_ge c k -> dyadic_ge x z -> dyadic_ge (c * x) (k + z).
Proof.
  intros [a [t [Ht Hc]]] [a' [t' [Ht' Hx]]].
  exists (a * a')%Z, (t * t')%Z. split.
  - rewrite Z.odd_mul, Ht, Ht'. reflexivity.
  - rewrite !of_Z_mul, pow2_add.
    transitivity ((c * Py.of_Z t) * (x * Py.of_Z t')); [ring|].
    rewrite Hc, Hx. ring.
Qed.

Lemma dy_weaken (x : Qc) (z z' : Z) :
  (z' <= z)%Z -> dyadic_ge x z -> dyadic_ge x z'.
Proof.
  intros H [a [t [Ht Hx]]].
  exists (a * 2 ^ (z - z'))%Z, t. split; [exact Ht|].
  rewrite Hx, of_Z_mul, <- pow2_nonneg by lia.
  replace z with ((z - z') + z')%Z at 1 by ring.
  rewrite pow2_add. ring.
Qed.

Lemma dy_opp (x : Qc) (z : Z) : dyadic_ge x z -> dyadic_ge (- x) z.
Proof.
  intros [a [t [Ht Hx]]]. exists (- a)%Z, t. split; [exact Ht|].
  replace (- x * Py.of_Z t) with (- (x * Py.of_Z t)) by ring.
  rewrite Hx. replace (- a)%Z with (-1 * a)%Z by ring.
  rewrite of_Z_mul. change (Py.of_Z (-1)) with (- (1)). ring.
Qed.

Lemma dy_sub (x y : Qc) (z : Z) :
  dyadic_ge x z -> dyadic_ge y z -> dyadic_ge (x - y) z.
Proof.
  intros Hx Hy. unfold Qcminus. apply dy_add; [exact Hx | apply dy_opp, Hy].
Qed.

(** Every rational is at some level. *)
Lemma pos_odd_part (p : positive) :
  exists (k : nat) (t : Z), Z.odd t = true /\ Zpos p = (2 ^ Z.of_nat k * t)%Z.
Proof.
  induction p as [p IH | p IH |].
  - exists 0%nat, (Zpos p~1). split; [reflexivity|]. simpl. lia.
  - destruct IH as [k [t [Ht E]]]. exists (S k), t. split; [exact Ht|].
    rewrite Nat2Z.inj_succ, Z.pow_succ_r by lia.
    change (Zpos p~0) with (2 * Zpos p)%Z. rewrite E. ring.
  - exists 0%nat, 1%Z. split; reflexivity.
Qed.

Lemma dy_bound (q : Qc) : exists z, dyadic_ge q z.
Proof.
  destruct (pos_odd_part (Qden q)) as [k [t [Ht E]]].
  exists (- Z.of_nat k)%Z, (Qnum q), t. split; [exact Ht|].
  assert (P : pow2 (- Z.of_nat k) * Py.of_Z (2 ^ Z.of_nat k) = 1).
  { rewrite <- pow2_nonneg by lia. rewrite <- pow2_add.
    replace (- Z.of_nat k + Z.of_nat k)%Z with 0%Z by ring.
    apply Qc_is_canon. reflexivity. }
  assert (D : q * Py.of_Z (Zpos (Qden q)) = Py.of_Z (Qnum q)).
  { apply Qc_is_canon. rewrite this_mult, !of_Z_this.
    destruct q as [[n p] c]. cbn [this Qnum Qden].
    unfold Qeq, Qmult, inject_Z. cbn [Qnum Qden].
    rewrite Pos.mul_1_r. ring. }
  rewrite E, of_Z_mul in D.
  transitivity (q * Py.of_Z t * (pow2 (- Z.of_nat k) * Py.of_Z (2 ^ Z.of_nat k)));
    [rewrite P; ring|].
  transitivity (q * (Py.of_Z (2 ^ Z.of_nat k) * Py.of_Z t) * pow2 (- Z.of_nat k));
    [ring|].
  rewrite D. reflexivity.
Qed.

Lemma of_Z_inj (a b : Z) : Py.of_Z a = Py.of_Z b -> a = b.
Proof.
  intro H. apply this_eq in H. rewrite !of_Z_this in H.
  apply inject_Z_injective, H.
Qed.

Lemma odd_coprime_pow2 (t z : Z) :
  Z.odd t = true -> (0 <= z)%Z -> Z.gcd (2 ^ z) t = 1%Z.
Proof.
  intros Ht Hz. apply Z.coprime_pow_l; [exact Hz|]. unfold Z.coprime.
  pose proof (Z.gcd_divide_l 2 t) as D2.
  pose proof (Z.gcd_divide_r 2 t) as Dt.
  pose proof (Z.gcd_nonneg 2 t) as P.
  apply Z.divide_pos_le in D2 as B; [|lia].
  assert (C : Z.gcd 2 t = 0%Z \/ Z.gcd 2 t = 1%Z \/ Z.gcd 2 t = 2%Z) by lia.
  destruct C as [C | [C | C]]; [|exact C|].
  - rewrite C in D2. destruct D2 as [q D2]. lia.
  - rewrite C in Dt. destruct Dt as [q E]. subst t.
    rewrite Z.odd_mul in Ht. rewrite andb_false_r in Ht. discriminate.
Qed.

(** Only zero is at every level. *)
Lemma dy_all_zero (q : Qc) (z0 : Z) :
  (forall z, (z0 <= z)%Z -> dyadic_ge q z) -> q = 0.
Proof.
  intro H.
  assert (D : q * Py.of_Z (Zpos (Qden q)) = Py.of_Z (Qnum q)).
  { apply Qc_is_canon. rewrite this_mult, !of_Z_this.
    destruct q as [[n p] c]. cbn [this Qnum Qden].
    unfold Qeq, Qmult, inject_Z. cbn [Qnum Qden].
    rewrite Pos.mul_1_r. ring. }
  set (z := (Z.max z0 0 + Z.abs (Qnum q))%Z).
  destruct (H z ltac:(lia)) as [a [t [Ht E]]].
  rewrite pow2_nonneg in E by lia.
  assert (N : (Qnum q * t = Zpos (Qden q) * (a * 2 ^ z))%Z).
  { apply of_Z_inj. rewrite !of_Z_mul, <- D, <- E. ring. }
  assert (V : (2 ^ z | Qnum q)%Z).
  { apply Z.gauss with (m := t).
    - rewrite Z.mul_comm, N. exists (Zpos (Qden q) * a)%Z. ring.
    - apply odd_coprime_pow2; [exact Ht | lia]. }
  assert (Z0 : Qnum q = 0%Z).
  { destruct V as [m V].
    assert (B : (Z.abs (Qnum q) < 2 ^ z)%Z).
    { apply Z.le_lt_trans with z; [lia|]. apply Z.pow_gt_lin_r; lia. }
    assert (m = 0%Z) by nia. subst m. lia. }
  apply Qc_is_canon. unfold Qeq. rewrite Z0. reflexivity.
Qed.

(** ** Descent on the equations of a balanced frame *)

Lemma dy_term (k z z' : Z) (c x : Qc) :
  dyadic_ge c k -> dyadic_ge x z -> (z' <= k + z)%Z -> dyadic_ge (c * x) z'.
Proof.
  intros Hc Hx H. apply (dy_weaken _ (k + z)); [exact H|].
  apply dy_mul; assumption.
Qed.

Section Descent.

Variable c : biquad.
Variables zi0 zi1 : Qc.

Hypothesis Ha1 : a1 c = 0.
Hypothesis Ha2 : a2 c <> 0.
Hypothesis Hb0 : b0 c <> 0.
Hypothesis Hb2 : b2 c <> 0.
Hypothesis L_a : dyadic_ge (/ a2 c) 55.
Hypothesis L_b0a : dyadic_ge (b0 c / a2 c) 1.
Hypothesis L_b1a : dyadic_ge (b1 c / a2 c) 1.
Hypothesis L_b2a : dyadic_ge (b2 c / a2 c) 1.
Hypothesis L_b0 : dyadic_ge (/ b0 c) 54.
Hypothesis L_b1b0 : dyadic_ge (b1 c / b0 c) 1.
Hypothesis L_b2 : dyadic_ge (/ b2 c) 54.
Hypothesis L_ab2 : dyadic_ge (a2 c / b2 c) (-1).
Hypothesis L_b0b2 : dyadic_ge (b0 c / b2 c) 0.
Hypothesis L_b1b2 : dyadic_ge (b1 c / b2 c) 1.
Hypothesis L_g : dyadic_ge (b0 c + zi0) 3.
Hypothesis L_k :
  dyadic_ge ((b1 c - a1 c * (b0 c + zi0) + zi1) / b0 c) 0.
Hypothesis L_lr : dyadic_ge (Py.lit 95 100 / Py.lit 85 100) 0.
Hypothesis L_rl : dyadic_ge (Py.lit 85 100 / Py.lit 95 100) 0.

Variables n d : nat.
Variables sv ev uv wv : nat -> Qc.

Hypothesis Hd : (10 <= d)%nat.
Hypothesis Hn : (d + 2 <= n)%nat.
Hypothesis He_level :
  forall z, (forall i, dyadic_ge (sv i) z) -> forall j, dyadic_ge (ev j) z.
Hypothesis He_zero : forall j, (j < 9 + d)%nat -> ev j = 0.
Hypothesis He_s : forall t, (t < n - d)%nat -> ev (9 + d + t)%nat = sv t.
Hypothesis Hu_zero : forall j, (j < 9 + d)%nat -> uv j = 0.
Hypothesis HF :
  forall j, (j + 2 < n + 18)%nat ->
    uv (j + 2)%nat =
      b0 c * ev (j + 2)%nat + b1 c * ev (j + 1)%nat + b2 c * ev j
      - a1 c * uv (j + 1)%nat - a2 c * uv j.
Hypothesis HB :
  forall k, (k + 2 < n + 18)%nat ->
    wv k =
      b0 c * uv k + b1 c * uv (k + 1)%nat + b2 c * uv (k + 2)%nat
      - a1 c * wv (k + 1)%nat - a2 c * wv (k + 2)%nat.
Hypothesis HI1 : wv (n + 17)%nat = (b0 c + zi0) * uv (n + 17)%nat.
Hypothesis HI2 :
  wv (n + 16)%nat =
    b0 c * uv (n + 16)%nat
    + (b1 c - a1 c * (b0 c + zi0) + zi1) * uv (n + 17)%nat.
Hypothesis HFP :
  forall i, (i < n)%nat ->
    sv i * Py.lit 95 100 = wv (9 + i)%nat * Py.lit 85 100.
Hypothesis Hs_out : forall i, (n <= i)%nat -> sv i = 0.

(** The forward equation read backwards in time. *)
Lemma forward_solved (j : nat) :
  (j + 2 < n + 18)%nat ->
  uv j = b0 c / a2 c * ev (j + 2)%nat + b1 c / a2 c * ev (j + 1)%nat
         + b2 c / a2 c * ev j - / a2 c * uv (j + 2)%nat.
Proof.
  intro H. rewrite (HF j H), Ha1. field. exact Ha2.
Qed.

(** The backward equation read forwards in time. *)
Lemma backward_solved (k : nat) :
  (k + 2 < n + 18)%nat ->
  wv (k + 2)%nat =
    b0 c / a2 c * uv k + b1 c / a2 c * uv (k + 1)%nat
    + b2 c / a2 c * uv (k + 2)%nat - / a2 c * wv k.
Proof.
  intro H. rewrite (HB k H), Ha1. field. exact Ha2.
Qed.

Lemma backward_solved_u (k : nat) :
  (k + 2 < n + 18)%nat ->
  uv (k + 2)%nat =
    / b2 c * wv k + a2 c / b2 c * wv (k + 2)%nat
    - b0 c / b2 c * uv k - b1 c / b2 c * uv (k + 1)%nat.
Proof.
  intro H. rewrite (HB k H), Ha1. field. exact Hb2.
Qed.

Lemma onset_0 : sv 0%nat = / b0 c * uv (9 + d)%nat.
Proof.
  replace (9 + d)%nat with ((7 + d) + 2)%nat by lia.
  rewrite (HF (7 + d)%nat) by lia.
  rewrite (Hu_zero (7 + d + 1)%nat), (Hu_zero (7 + d)%nat) by lia.
  rewrite (He_zero (7 + d + 1)%nat), (He_zero (7 + d)%nat) by lia.
  replace (7 + d + 2)%nat with (9 + d + 0)%nat by lia.
  rewrite (He_s 0%nat) by lia. field. exact Hb0.
Qed.

Lemma onset_1 :
  sv 1%nat = / b0 c * uv (10 + d)%nat - b1 c / b0 c * sv 0%nat.
Proof.
  replace (10 + d)%nat with ((8 + d) + 2)%nat by lia.
  rewrite (HF (8 + d)%nat) by lia.
  rewrite (Hu_zero (8 + d)%nat) by lia.
  rewrite (He_zero (8 + d)%nat) by lia.
  replace (8 + d + 2)%nat with (9 + d + 1)%nat by lia.
  replace (8 + d + 1)%nat with (9 + d + 0)%nat by lia.
  rewrite (He_s 1%nat), (He_s 0%nat) by lia.
  rewrite Ha1. field. exact Hb0.
Qed.

Lemma left_of_right (i : nat) :
  (i < n)%nat -> sv i = Py.lit 85 100 / Py.lit 95 100 * wv (9 + i)%nat.
Proof.
  intro H. 
  transitivity (sv i * Py.lit 95 100 / Py.lit 95 100);
    [field; discriminate|].
  rewrite (HFP i H). field. discriminate.
Qed.

Lemma right_of_left (i : nat) :
  (i < n)%nat -> wv (9 + i)%nat = Py.lit 95 100 / Py.lit 85 100 * sv i.
Proof.
  intro H.
  transitivity (wv (9 + i)%nat * Py.lit 85 100 / Py.lit 85 100);
    [field; discriminate|].
  rewrite <- (HFP i H). field. discriminate.
Qed.

Lemma descent_step (z : Z) :
  descent_state n sv uv wv z -> descent_state n sv uv wv (z + 1).
Proof.
  intros [Ss [Su [Sw [Sw2 [Su1 Su2]]]]].
  (* every forward output at the old level, the last two one below *)
  assert (Ua : forall j, dyadic_ge (uv j) (z - 1) \/ (n + 18 <= j)%nat).
  { intro j.
    destruct (Nat.le_gt_cases (j + 3) (n + 18)) as [A | A].
    - left. apply (dy_weaken _ z); [lia | apply Su, A].
    - destruct (Nat.eq_dec j (n + 16)) as [-> | N1]; [left; exact Su2|].
      destruct (Nat.eq_dec j (n + 17)) as [-> | N2]; [left; exact Su1|].
      right. lia. }
  assert (Se : forall j, dyadic_ge (ev j) z) by (apply He_level, Ss).
  (* forward outputs but the last two *)
  assert (Su' : forall j, (j + 3 <= n + 18)%nat -> dyadic_ge (uv j) (z + 1)).
  { intros j Hj.
    destruct (Nat.lt_ge_cases j (9 + d)) as [Z | Z];
      [rewrite (Hu_zero j Z); apply dy_zero|].
    rewrite (forward_solved j) by lia.
    destruct (Ua (j + 2)%nat) as [U | U]; [|lia].
    apply dy_sub; [apply dy_add; [apply dy_add|]|].
    - apply (dy_term 1 z); [exact L_b0a | apply Se | lia].
    - apply (dy_term 1 z); [exact L_b1a | apply Se | lia].
    - apply (dy_term 1 z); [exact L_b2a | apply Se | lia].
    - apply (dy_term 55 (z - 1)); [exact L_a | exact U | lia]. }
  (* the first two input samples *)
  assert (S0 : dyadic_ge (sv 0%nat) (z + 1)).
  { rewrite onset_0.
    apply (dy_term 54 z); [exact L_b0 | apply Su; lia | lia]. }
  assert (S1 : dyadic_ge (sv 1%nat) (z + 1)).
  { rewrite onset_1. apply dy_sub.
    - apply (dy_term 54 z); [exact L_b0 | apply Su; lia | lia].
    - apply (dy_term 1 z); [exact L_b1b0 | apply Ss | lia]. }
  (* backward outputs, but the one before the last *)
  assert (Sw' : forall k, (9 <= k < n + 18)%nat -> k <> (n + 16)%nat ->
                          dyadic_ge (wv k) (z + 1)).
  { intros k Hk Nk.
    destruct (Nat.eq_dec k 9) as [-> | N9].
    { replace 9%nat with (9 + 0)%nat by lia. rewrite right_of_left by lia.
      apply (dy_term 0 (z + 1)); [exact L_lr | exact S0 | lia]. }
    destruct (Nat.eq_dec k 10) as [-> | N10].
    { replace 10%nat with (9 + 1)%nat by lia. rewrite right_of_left by lia.
      apply (dy_term 0 (z + 1)); [exact L_lr | exact S1 | lia]. }
    destruct (Nat.eq_dec k (n + 17)) as [-> | N17].
    { rewrite HI1. apply (dy_term 3 (z - 1)); [exact L_g | exact Su1 | lia]. }
    replace k with ((k - 2) + 2)%nat by lia.
    rewrite (backward_solved (k - 2)%nat) by lia.
    apply dy_sub; [apply dy_add; [apply dy_add|]|].
    - apply (dy_term 1 z); [exact L_b0a | apply Su; lia | lia].
    - apply (dy_term 1 z); [exact L_b1a | apply Su; lia | lia].
    - apply (dy_term 1 z); [exact L_b2a | apply Su; lia | lia].
    - apply (dy_term 55 z); [exact L_a | apply Sw; lia | lia]. }
  (* every input sample *)
  assert (Ss' : forall i, dyadic_ge (sv i) (z + 1)).
  { intro i. destruct (Nat.lt_ge_cases i n) as [I | I];
      [|rewrite (Hs_out i I); apply dy_zero].
    rewrite left_of_right by exact I.
    apply (dy_term 0 (z + 1)); [exact L_rl | apply Sw'; lia | lia]. }
  (* the last forward output *)
  assert (Su1' : dyadic_ge (uv (n + 17)%nat) z).
  { replace (n + 17)%nat with ((n + 15) + 2)%nat by lia.
    rewrite (backward_solved_u (n + 15)%nat) by lia.
    apply dy_sub; [apply dy_sub; [apply dy_add|]|].
    - apply (dy_term 54 (z + 1)); [exact L_b2 | apply Sw'; lia | lia].
    - apply (dy_term (-1) (z + 1)); [exact L_ab2 | apply Sw'; lia | lia].
    - apply (dy_term 0 (z + 1)); [exact L_b0b2 | apply Su'; lia | lia].
    - replace (n + 15 + 1)%nat with (n + 16)%nat by lia.
      apply (dy_term 1 (z - 1)); [exact L_b1b2 | exact Su2 | lia]. }
  (* the forward output before it *)
  assert (Su2' : dyadic_ge (uv (n + 16)%nat) z).
  { assert (E : uv (n + 16)%nat =
                / b0 c * wv (n + 16)%nat
                - (b1 c - a1 c * (b0 c + zi0) + zi1) / b0 c
                  * uv (n + 17)%nat)
      by (rewrite HI2; field; exact Hb0).
    rewrite E. apply dy_sub.
    - apply (dy_term 54 z); [exact L_b0 | exact Sw2 | lia].
    - apply (dy_term 0 z); [exact L_k | exact Su1' | lia]. }
  (* the backward output before the last *)
  assert (Sw2' : dyadic_ge (wv (n + 16)%nat) (z + 1)).
  { replace (n + 16)%nat with ((n + 14) + 2)%nat at 1 by lia.
    rewrite (backward_solved (n + 14)%nat) by lia.
    replace (n + 14 + 2)%nat with (n + 16)%nat by lia.
    apply dy_sub; [apply dy_add; [apply dy_add|]|].
    - apply (dy_term 1 (z + 1)); [exact L_b0a | apply Su'; lia | lia].
    - apply (dy_term 1 (z + 1)); [exact L_b1a | apply Su'; lia | lia].
    - apply (dy_term 1 z); [exact L_b2a | exact Su2' | lia].
    - apply (dy_term 55 (z + 1)); [exact L_a | apply Sw'; lia | lia]. }
  unfold descent_state.
  replace (z + 1 - 1)%Z with z by ring.
  repeat split; assumption.
Qed.

Lemma descent_from (z0 : Z) :
  descent_state n sv uv wv z0 ->
  forall z, (z0 <= z)%Z -> descent_state n sv uv wv z.
Proof.
  intros H0 z Hz.
  replace z with (z0 + Z.of_nat (Z.to_nat (z - z0)))%Z by lia.
  induction (Z.to_nat (z - z0)) as [|m IH].
  - rewrite Z.add_0_r. exact H0.
  - rewrite Nat2Z.inj_succ.
    replace (z0 + Z.succ (Z.of_nat m))%Z with (z0 + Z.of_nat m + 1)%Z by lia.
    apply descent_step, IH.
Qed.

Lemma descent_silent :
  (exists z0, descent_state n sv uv wv z0) -> forall i, sv i = 0.
Proof.
  intros [z0 H0] i. apply (dy_all_zero _ z0).
  intros z Hz. apply (descent_from z0 H0 z Hz).
Qed.

End Descent.

(** ** The coefficients of the low-pass *)

Ltac dy_const a t :=
  exists a, t; split;
  [reflexivity | apply Qc_is_canon; vm_compute; reflexivity].

Lemma butter2_half_zi :
  Sig.lfilter_zi butter2_half =
    Ok ((b1 butter2_half - a1 butter2_half * b0 butter2_half
         + (b2 butter2_half - a2 butter2_half * b0 butter2_half))
        / (1 + a1 butter2_half + a2 butter2_half),
        b2 butter2_half - a2 butter2_half * b0 butter2_half
        - a2 butter2_half
          * ((b1 butter2_half - a1 butter2_half * b0 butter2_half
              + (b2 butter2_half - a2 butter2_half * b0 butter2_half))
             / (1 + a1 butter2_half + a2 butter2_half))).
Proof.
  unfold Sig.lfilter_zi.
  replace (Qc_eq_bool (1 + a1 butter2_half + a2 butter2_half) 0) with false
    by (symmetry; apply Qc_eq_bool_false; discriminate).
  reflexivity.
Qed.

Lemma level_inv_a2 : dyadic_ge (/ a2 butter2_half) 55.
Proof. dy_const 1%Z 6181564296479543%Z. Qed.

Lemma level_b0_a2 : dyadic_ge (b0 butter2_half / a2 butter2_half) 1.
Proof. dy_const 5276295164430439%Z 6181564296479543%Z. Qed.

Lemma level_b1_a2 : dyadic_ge (b1 butter2_half / a2 butter2_half) 1.
Proof. dy_const (2 * 5276295164430439)%Z 6181564296479543%Z. Qed.

Lemma level_b2_a2 : dyadic_ge (b2 butter2_half / a2 butter2_half) 1.
Proof. dy_const 5276295164430439%Z 6181564296479543%Z. Qed.

Lemma level_inv_b0 : dyadic_ge (/ b0 butter2_half) 54.
Proof. dy_const 1%Z 5276295164430439%Z. Qed.

Lemma level_b1_b0 : dyadic_ge (b1 butter2_half / b0 butter2_half) 1.
Proof. dy_const 1%Z 1%Z. Qed.

Lemma level_inv_b2 : dyadic_ge (/ b2 butter2_half) 54.
Proof. dy_const 1%Z 5276295164430439%Z. Qed.

Lemma level_a2_b2 : dyadic_ge (a2 butter2_half / b2 butter2_half) (-1).
Proof. dy_const 6181564296479543%Z 5276295164430439%Z. Qed.

Lemma level_b0_b2 : dyadic_ge (b0 butter2_half / b2 butter2_half) 0.
Proof. dy_const 1%Z 1%Z. Qed.

Lemma level_b1_b2 : dyadic_ge (b1 butter2_half / b2 butter2_half) 1.
Proof. dy_const 1%Z 1%Z. Qed.

Lemma level_first_gain :
  dyadic_ge
    (b0 butter2_half
     + (b1 butter2_half - a1 butter2_half * b0 butter2_half
        + (b2 butter2_half - a2 butter2_half * b0 butter2_half))
       / (1 + a1 butter2_half + a2 butter2_half)) 3.
Proof. dy_const 5276295164430439%Z (2 ^ 55 + 6181564296479543)%Z. Qed.

Lemma level_second_gain :
  dyadic_ge
    ((b1 butter2_half
      - a1 butter2_half
        * (b0 butter2_half
           + (b1 butter2_half - a1 butter2_half * b0 butter2_half
              + (b2 butter2_half - a2 butter2_half * b0 butter2_half))
             / (1 + a1 butter2_half + a2 butter2_half))
      + (b2 butter2_half - a2 butter2_half * b0 butter2_half
         - a2 butter2_half
           * ((b1 butter2_half - a1 butter2_half * b0 butter2_half
               + (b2 butter2_half - a2 butter2_half * b0 butter2_half))
              / (1 + a1 butter2_half + a2 butter2_half))))
     / b0 butter2_half) 0.
Proof.
  dy_const (3 * 2 ^ 55 - 6181564296479543)%Z (2 ^ 55 + 6181564296479543)%Z.
Qed.

Lemma level_left_right : dyadic_ge (Py.lit 95 100 / Py.lit 85 100) 0.
Proof. dy_const 19%Z 17%Z. Qed.

Lemma level_right_left : dyadic_ge (Py.lit 85 100 / Py.lit 95 100) 0.
Proof. dy_const 17%Z 19%Z. Qed.

Lemma filtfilt_unfold (c : biquad) (x y : list Qc) (zi : Qc * Qc) :
  Sig.lfilter_zi c = Ok zi ->
  Sig.filtfilt c x = Ok y ->
  exists ext u w,
    ext = Sig.odd_ext x Sig.edge /\
    u = Sig.lfilter c (fst zi * hd 0 ext) (snd zi * hd 0 ext) ext /\
    w = rev (Sig.lfilter c (fst zi * last u 0) (snd zi * last u 0) (rev u)) /\
    y = firstn (length w - 2 * Sig.edge) (skipn Sig.edge w).
Proof.
  intros Z. unfold Sig.filtfilt.
  destruct (length x <=? Sig.edge)%nat; [discriminate|].
  rewrite Z. unfold bind. cbv zeta. intro H. apply Ok_inj in H.
  eexists _, _, _. repeat split. symmetry. exact H.
Qed.

Lemma Forall_firstn {A : Type} (P : A -> Prop) (n : nat) (l : list A) :
  Forall P l -> Forall P (firstn n l).
Proof.
  intro H. rewrite <- (firstn_skipn n l) in H.
  apply Forall_app in H. exact (proj1 H).
Qed.

Lemma Forall_tl {A : Type} (P : A -> Prop) (l : list A) :
  Forall P l -> Forall P (tl l).
Proof. intros [|a l' _ H]; [constructor | exact H]. Qed.

Lemma Forall_last {A : Type} (P : A -> Prop) (l : list A) (d : A) :
  Forall P l -> P d -> P (last l d).
Proof.
  intros H Hd. induction H as [|a l Ha Hl IH]; [exact Hd|].
  destruct l; [exact Ha | exact IH].
Qed.

Lemma Forall_nth_default {A : Type} (P : A -> Prop) (l : list A) (d : A)
    (i : nat) :
  Forall P l -> P d -> P (nth i l d).
Proof.
  intros H Hd. destruct (Nat.lt_ge_cases i (length l)) as [L | L].
  - rewrite Forall_forall in H. apply H, nth_In, L.
  - rewrite nth_overflow by exact L. exact Hd.
Qed.

(** What holds of zero and of the samples, and is kept by reflection
    about a sample, holds of the padded signal. *)
Lemma odd_ext_forall (P : Qc -> Prop) (x : list Qc) (n : nat) :
  P 0 -> (forall a b, P a -> P b -> P (Py.lit 2 1 * a - b)) ->
  Forall P x -> Forall P (Sig.odd_ext x n).
Proof.
  intros P0 Pr H. unfold Sig.odd_ext.
  apply Forall_app. split; [|apply Forall_app; split; [exact H|]].
  - apply Forall_map, Forall_rev, Forall_firstn, Forall_tl.
    eapply Forall_impl; [|exact H]. intros b Hb. apply Pr; [|exact Hb].
    destruct H; [exact P0 | assumption].
  - apply Forall_map, Forall_firstn, Forall_tl, Forall_rev.
    eapply Forall_impl; [|exact H]. intros b Hb. apply Pr; [|exact Hb].
    apply Forall_last; assumption.
Qed.

Lemma lfilter_first_two (c : biquad) (z0 z1 r0 r1 : Qc) (r : list Qc) :
  nth 0 (Sig.lfilter c z0 z1 (r0 :: r1 :: r)) 0 = b0 c * r0 + z0 /\
  nth 1 (Sig.lfilter c z0 z1 (r0 :: r1 :: r)) 0 =
    b0 c * r1 + (b1 c * r0 - a1 c * (b0 c * r0 + z0) + z1).
Proof. split; reflexivity. Qed.

Lemma levels_bounded (l : list Qc) :
  exists z, forall i, dyadic_ge (nth i l 0) z.
Proof.
  induction l as [|a l [z IH]].
  - exists 0%Z. intros [|i]; apply dy_zero.
  - destruct (dy_bound a) as [za Ha].
    exists (Z.min z za). intros [|i]; cbn [nth].
    + apply (dy_weaken _ za); [lia | exact Ha].
    + apply (dy_weaken _ z); [lia | apply IH].
Qed.

Lemma silent_by_nth (x : list Qc) : (forall i, nth i x 0 = 0) -> silent x.
Proof.
  intro H. unfold silent. apply Forall_forall. intros v I.
  destruct (In_nth _ _ 0 I) as [i [_ E]]. rewrite <- E. apply H.
Qed.

Lemma dy_reflect (z : Z) (a b : Qc) :
  dyadic_ge a z -> dyadic_ge b z -> dyadic_ge (Py.lit 2 1 * a - b) z.
Proof.
  intros Ha Hb. apply dy_sub; [|exact Hb].
  apply (dy_term 0 z); [|exact Ha | lia].
  exists 2%Z, 1%Z. split; [reflexivity|].
  apply Qc_is_canon. vm_compute. reflexivity.
Qed.

Lemma rev_two_last (u : list Qc) :
  (2 <= length u)%nat ->
  exists r,
    rev u = nth (length u - 1) u 0 :: nth (length u - 2) u 0 :: r /\
    last u 0 = nth (length u - 1) u 0.
Proof.
  intro H.
  assert (L : length (rev u) = length u) by apply length_rev.
  destruct (rev u) as [|r0 [|r1 r]] eqn:R; cbn [length] in L; try lia.
  assert (U : u = (rev r ++ [r1]) ++ [r0]).
  { rewrite <- (rev_involutive u), R. reflexivity. }
  assert (Lr : length (rev r ++ [r1]) = (length r + 1)%nat)
    by (rewrite length_app, length_rev; reflexivity).
  assert (N1 : nth (length u - 1) u 0 = r0).
  { rewrite U at 2. rewrite app_nth2 by lia.
    replace (length u - 1 - length (rev r ++ [r1]))%nat with 0%nat by lia.
    reflexivity. }
  assert (N2 : nth (length u - 2) u 0 = r1).
  { rewrite U at 2. rewrite app_nth1 by lia.
    rewrite app_nth2 by (rewrite length_rev; lia).
    replace (length u - 2 - length (rev r))%nat with 0%nat
      by (rewrite length_rev; lia).
    reflexivity. }
  exists r. rewrite N1, N2. split; [reflexivity|].
  rewrite U. apply last_last.
Qed.

(** Channels in balance leave no room for a signal. *)
Lemma balance_silent (s y : list Qc) (d : nat) :
  (10 <= d)%nat -> (d + 2 <= length s)%nat ->
  Sig.filtfilt butter2_half (delayed s d) = Ok y ->
  Np.scale s (Py.lit 95 100) = Np.scale y (Py.lit 85 100) ->
  silent s.
Proof.
  intros Hd Hn F E.
  assert (Hi : forall i,
            nth i s 0 * Py.lit 95 100 = nth i y 0 * Py.lit 85 100).
  { intro i. rewrite <- !nth_scale, E. reflexivity. }
  destruct (filtfilt_inv _ _ _ F) as [_ [_ Ly]].
  rewrite delayed_length in Ly by lia.
  destruct (filtfilt_unfold _ _ _ _ butter2_half_zi F)
    as [ext [u [w [Eext [Eu [Ew Ey]]]]]].
  cbn [fst snd] in Eu, Ew.
  assert (Le : length ext = (length s + 18)%nat).
  { rewrite Eext, odd_ext_length
      by (rewrite delayed_length; unfold Sig.edge; lia).
    rewrite delayed_length by lia. unfold Sig.edge. lia. }
  (* the padded signal: silence, the kept samples, the pad at the tail *)
  destruct (odd_ext_after_silence (d - 10) (firstn (length s - d) s))
    as [pad X].
  replace (10 + (d - 10))%nat with d in X by lia.
  replace (19 + (d - 10))%nat with (9 + d)%nat in X by lia.
  fold (delayed s d) in X. rewrite X in Eext.
  assert (H0 : hd 0 ext = 0) by (rewrite Eext; reflexivity).
  rewrite H0 in Eu.
  replace (_ * 0) with 0 in Eu by ring.
  replace (_ * 0) with 0 in Eu by ring.
  assert (Lu : length u = (length s + 18)%nat)
    by (rewrite Eu, lfilter_length; exact Le).
  assert (Lw : length w = (length s + 18)%nat)
    by (rewrite Ew, length_rev, lfilter_length, length_rev; exact Lu).
  apply silent_by_nth.
  apply (descent_silent butter2_half _ _
           eq_refl ltac:(discriminate) ltac:(discriminate)
           ltac:(discriminate)
           level_inv_a2 level_b0_a2 level_b1_a2 level_b2_a2 level_inv_b0
           level_b1_b0 level_inv_b2 level_a2_b2 level_b0_b2 level_b1_b2
           level_first_gain level_second_gain
           level_left_right level_right_left
           (length s) d
           (fun i => nth i s 0) (fun j => nth j ext 0)
           (fun j => nth j u 0) (fun k => nth k w 0) Hd Hn).
  - (* levels of the padded signal *)
    intros z Hs j. apply Forall_nth_default; [|apply dy_zero].
    rewrite Eext, <- X. apply odd_ext_forall;
      [apply dy_zero | intros a b; apply dy_reflect |].
    unfold delayed. apply Forall_app. split.
    + apply Forall_forall. intros v I. apply repeat_spec in I. subst v.
      apply dy_zero.
    + apply Forall_firstn, Forall_forall. intros v I.
      destruct (In_nth _ _ 0 I) as [i [_ <-]]. apply Hs.
  - intros j Hj. rewrite Eext, app_nth1 by (rewrite repeat_length; exact Hj).
    apply nth_repeat.
  - intros t Ht. rewrite Eext, app_nth2 by (rewrite repeat_length; lia).
    rewrite repeat_length.
    replace (9 + d + t - (9 + d))%nat with t by lia.
    rewrite app_nth1 by (rewrite length_firstn; lia).
    rewrite nth_firstn. rewrite (proj2 (Nat.ltb_lt _ _) Ht). reflexivity.
  - intros j Hj. rewrite Eu, Eext, lfilter_zero_prefix.
    rewrite app_nth1 by (rewrite repeat_length; exact Hj).
    apply nth_repeat.
  - intros j Hj. rewrite Eu. apply lfilter_recurrence. rewrite Le. exact Hj.
  - intros k Hk. rewrite Ew. apply backward_recurrence. rewrite Lu. exact Hk.
  - destruct (rev_two_last u ltac:(lia)) as [r [R Lst]].
    rewrite Lu in R, Lst.
    replace (length s + 18 - 1)%nat with (length s + 17)%nat in R, Lst by lia.
    replace (length s + 18 - 2)%nat with (length s + 16)%nat in R by lia.
    rewrite Ew, rev_nth by (rewrite lfilter_length, length_rev; lia).
    rewrite lfilter_length, length_rev, Lu.
    replace (length s + 18 - S (length s + 17))%nat with 0%nat by lia.
    rewrite R, Lst. cbn [Sig.lfilter nth]. ring.
  - destruct (rev_two_last u ltac:(lia)) as [r [R Lst]].
    rewrite Lu in R, Lst.
    replace (length s + 18 - 1)%nat with (length s + 17)%nat in R, Lst by lia.
    replace (length s + 18 - 2)%nat with (length s + 16)%nat in R by lia.
    rewrite Ew, rev_nth by (rewrite lfilter_length, length_rev; lia).
    rewrite lfilter_length, length_rev, Lu.
    replace (length s + 18 - S (length s + 16))%nat with 1%nat by lia.
    rewrite R, Lst. cbn [Sig.lfilter nth]. ring.
  - intros i Hi'. rewrite Hi. f_equal.
    rewrite Ey, nth_firstn, Lw. unfold Sig.edge.
    rewrite (proj2 (Nat.ltb_lt _ _)) by lia.
    apply nth_skipn.
  - intros i Hi'. apply nth_overflow. exact Hi'.
  - (* some level holds of every value *)
    destruct (levels_bounded s) as [zs Bs].
    destruct (levels_bounded u) as [zu Bu].
    destruct (levels_bounded w) as [zw Bw].
    exists (Z.min zs (Z.min zu zw)). unfold descent_state.
    repeat split; intros;
      first [ apply (dy_weaken _ zs); [lia | apply Bs]
            | apply (dy_weaken _ zu); [lia | apply Bu]
            | apply (dy_weaken _ zw); [lia | apply Bw] ].
Qed.

(** *** One sample after the delay *)

Lemma lfilter_app (c : biquad) (x y : list Qc) :
  forall z0 z1,
    Sig.lfilter c z0 z1 (x ++ y) =
      Sig.lfilter c z0 z1 x
      ++ Sig.lfilter c (fst (lfilter_final c z0 z1 x))
           (snd (lfilter_final c z0 z1 x)) y.
Proof.
  induction x as [|v x IH]; intros z0 z1; [reflexivity|].
  cbn [app Sig.lfilter lfilter_final]. rewrite IH. reflexivity.
Qed.

Lemma lfilter_scale (c : biquad) (q : Qc) (x : list Qc) :
  forall z0 z1,
    Sig.lfilter c (z0 * q) (z1 * q) (Np.scale x q) =
      Np.scale (Sig.lfilter c z0 z1 x) q.
Proof.
  unfold Np.scale.
  induction x as [|v x IH]; intros z0 z1; [reflexivity|].
  cbn [map Sig.lfilter]. f_equal; [ring|].
  rewrite <- IH. f_equal; ring.
Qed.

Lemma rev_silence (n : nat) : rev (repeat 0 n) = repeat 0 n.
Proof.
  apply silent_eq.
  - apply silent_rev, silent_repeat.
  - apply silent_repeat.
  - rewrite length_rev. reflexivity.
Qed.

Lemma scale_silence (n : nat) (q : Qc) : Np.scale (repeat 0 n) q = repeat 0 n.
Proof.
  apply silent_eq.
  - apply silent_scale, silent_repeat.
  - apply silent_repeat.
  - apply scale_length.
Qed.

(** The padded signal when one sample only follows the delay. *)
Lemma odd_ext_single (p : nat) (v : Qc) :
  Sig.odd_ext (repeat 0 (10 + p) ++ [v]) Sig.edge =
    repeat 0 (19 + p) ++ Np.scale edge_step v.
Proof.
  unfold Sig.odd_ext, Sig.edge.
  rewrite last_last, rev_app_distr, rev_silence.
  cbn [Nat.add repeat app hd tl firstn rev map Np.scale edge_step].
  replace (Py.lit 2 1 * 0 - 0) with 0 by ring.
  replace (Py.lit 2 1 * v - 0) with (Py.lit 2 1 * v) by ring.
  replace (1 * v) with v by ring.
  rewrite <- app_assoc. reflexivity.
Qed.

(** With no input the low-pass rings down: two steps on, both state
    values have been multiplied by [- a2]. *)
Lemma decay_two (z0 z1 : Qc) (x : list Qc) :
  Sig.lfilter butter2_half z0 z1 (0 :: 0 :: x) =
    z0 :: z1
    :: Sig.lfilter butter2_half (- a2 butter2_half * z0)
         (- a2 butter2_half * z1) x.
Proof.
  cbn [Sig.lfilter]. cbn [a1 butter2_half].
  f_equal; [ring|]. f_equal; [ring|]. f_equal; ring.
Qed.

Lemma decay_shift (z0 z1 : Qc) (m t : nat) :
  nth (t + 2) (Sig.lfilter butter2_half z0 z1 (repeat 0 (m + 2))) 0 =
    nth t (Sig.lfilter butter2_half (- a2 butter2_half * z0)
             (- a2 butter2_half * z1) (repeat 0 m)) 0.
Proof.
  replace (m + 2)%nat with (S (S m)) by lia.
  replace (t + 2)%nat with (S (S t)) by lia.
  cbn [repeat]. rewrite decay_two. reflexivity.
Qed.

Lemma abs_ring_down (z B : Qc) :
  Qcabs z <= B -> Qcabs (- a2 butter2_half * z) <= a2 butter2_half * B.
Proof.
  intro H. rewrite Qcabs_Qcmult, Qcabs_opp.
  rewrite (Qcabs_pos (a2 butter2_half)) by (vm_compute; discriminate).
  rewrite !(Qcmult_comm (a2 butter2_half)).
  apply Qcmult_le_compat_r; [exact H | vm_compute; discriminate].
Qed.

Lemma ring_down_le (B : Qc) : 0 <= B -> a2 butter2_half * B <= B.
Proof.
  intro H. rewrite <- (Qcmult_1_l B) at 2.
  apply Qcmult_le_compat_r; [vm_compute; discriminate | exact H].
Qed.

Lemma decay_bound (B : Qc) (t : nat) :
  forall (m : nat) (z0 z1 : Qc),
    Qcabs z0 <= B -> Qcabs z1 <= B ->
    Qcabs (nth t (Sig.lfilter butter2_half z0 z1 (repeat 0 m)) 0) <= B.
Proof.
  induction t as [t IH] using (well_founded_induction lt_wf).
  intros m z0 z1 H0 H1.
  assert (HB : 0 <= B)
    by (apply Qcle_trans with (Qcabs z0); [apply Qcabs_nonneg | exact H0]).
  destruct m as [|[|m]].
  - destruct t; exact HB.
  - destruct t as [|[|t]]; cbn [repeat Sig.lfilter nth]; try exact HB.
    replace (b0 butter2_half * 0 + z0) with z0 by ring. exact H0.
  - destruct t as [|[|t]].
    + cbn [repeat]. rewrite decay_two. exact H0.
    + cbn [repeat]. rewrite decay_two. exact H1.
    + cbn [repeat]. rewrite decay_two. cbn [nth].
      apply IH; [lia | |];
        (eapply Qcle_trans; [apply abs_ring_down; eassumption
                            | apply ring_down_le, HB]).
Qed.

Lemma scale_silent_inv (x : list Qc) (c : Qc) :
  c <> 0 -> silent (Np.scale x c) -> silent x.
Proof.
  intros Hc. unfold silent, Np.scale. rewrite Forall_map.
  apply Forall_impl. intros v Hv.
  destruct (Qcmult_integral _ _ Hv) as [E | E]; [exact E | contradiction].
Qed.

Lemma scale_app (x y : list Qc) (q : Qc) :
  Np.scale (x ++ y) q = Np.scale x q ++ Np.scale y q.
Proof. apply map_app. Qed.

Lemma scale_rev (x : list Qc) (q : Qc) :
  Np.scale (rev x) q = rev (Np.scale x q).
Proof. unfold Np.scale. apply map_rev. Qed.

(** The sample of the zero-phase filter's output that answers the head
    of the signal, when one sample only follows a delay of ten samples
    or more: that sample times a factor below [a2^4]. *)

Lemma filtfilt_single_head (d : nat) (v : Qc) (y : list Qc) :
  (10 <= d)%nat ->
  Sig.filtfilt butter2_half (repeat 0 d ++ [v]) = Ok y ->
  exists K,
    nth 0 y 0 = K * v /\
    Qcabs K <= a2 butter2_half * (a2 butter2_half
                 * (a2 butter2_half * (a2 butter2_half * 1))).
Proof.
  intros Hd F.
  destruct (filtfilt_inv _ _ _ F) as [_ [_ Ly]].
  rewrite length_app, repeat_length in Ly. cbn [length] in Ly.
  destruct (filtfilt_unfold _ _ _ _ butter2_half_zi F)
    as [ext [u [w [Eext [Eu [Ew Ey]]]]]].
  cbn [fst snd] in Eu, Ew.
  replace d with (10 + (d - 10))%nat in Eext at 1 by lia.
  rewrite odd_ext_single in Eext.
  replace (19 + (d - 10))%nat with (9 + d)%nat in Eext by lia.
  assert (H0 : hd 0 ext = 0) by (rewrite Eext; reflexivity).
  rewrite H0 in Eu.
  replace (_ * 0) with (0 * v) in Eu by ring.
  replace (_ * 0) with (0 * v) in Eu by ring.
  rewrite Eext in Eu.
  replace (0 * v) with 0 in Eu at 1 2 by ring.
  rewrite lfilter_zero_prefix in Eu.
  replace 0 with (0 * v) in Eu at 2 3 by ring.
  rewrite lfilter_scale in Eu.
  set (ut := Sig.lfilter butter2_half 0 0 edge_step) in *.
  assert (Lut : length ut = 10%nat) by reflexivity.
  assert (Lst : last u 0 = last ut 0 * v).
  { rewrite Eu.
    rewrite (app_removelast_last (l := ut) 0) at 1
      by (intro E; rewrite E in Lut; discriminate).
    rewrite scale_app, app_assoc. cbn [Np.scale map]. apply last_last. }
  assert (Ru : rev u = Np.scale (rev ut ++ repeat 0 (9 + d)) v).
  { rewrite Eu, rev_app_distr, rev_silence, scale_app, scale_rev.
    rewrite scale_silence. reflexivity. }
  rewrite Ru, Lst in Ew.
  replace (_ * (last ut 0 * v)) with
    ((b1 butter2_half - a1 butter2_half * b0 butter2_half
      + (b2 butter2_half - a2 butter2_half * b0 butter2_half))
     / (1 + a1 butter2_half + a2 butter2_half) * last ut 0 * v)
    in Ew at 1 by ring.
  replace (_ * (last ut 0 * v)) with
    ((b2 butter2_half - a2 butter2_half * b0 butter2_half
      - a2 butter2_half
        * ((b1 butter2_half - a1 butter2_half * b0 butter2_half
            + (b2 butter2_half - a2 butter2_half * b0 butter2_half))
           / (1 + a1 butter2_half + a2 butter2_half))) * last ut 0 * v)
    in Ew by ring.
  rewrite lfilter_scale, lfilter_app in Ew.
  set (s0 := (b1 butter2_half - a1 butter2_half * b0 butter2_half
              + (b2 butter2_half - a2 butter2_half * b0 butter2_half))
             / (1 + a1 butter2_half + a2 butter2_half) * last ut 0) in *.
  set (s1 := (b2 butter2_half - a2 butter2_half * b0 butter2_half
              - a2 butter2_half
                * ((b1 butter2_half - a1 butter2_half * b0 butter2_half
                    + (b2 butter2_half - a2 butter2_half * b0 butter2_half))
                   / (1 + a1 butter2_half + a2 butter2_half)))
             * last ut 0) in *.
  set (f0 := fst (lfilter_final butter2_half s0 s1 (rev ut))) in *.
  set (f1 := snd (lfilter_final butter2_half s0 s1 (rev ut))) in *.
  assert (B0 : Qcabs f0 <= 1) by (vm_compute; discriminate).
  assert (B1 : Qcabs f1 <= 1) by (vm_compute; discriminate).
  assert (Lh : length (Sig.lfilter butter2_half s0 s1 (rev ut)) = 10%nat)
    by reflexivity.
  exists (nth (d - 9)
            (Sig.lfilter butter2_half
               (- a2 butter2_half * (- a2 butter2_half
                  * (- a2 butter2_half * (- a2 butter2_half * f0))))
               (- a2 butter2_half * (- a2 butter2_half
                  * (- a2 butter2_half * (- a2 butter2_half * f1))))
               (repeat 0 (d + 1))) 0).
  split.
  - rewrite Ey. unfold Sig.edge. rewrite nth_firstn.
    assert (Lw : length w = (d + 19)%nat).
    { rewrite Ew, length_rev, scale_length, length_app, Lh, lfilter_length,
        repeat_length. lia. }
    rewrite Lw. rewrite (proj2 (Nat.ltb_lt _ _)) by lia.
    rewrite nth_skipn. replace (9 + 0)%nat with 9%nat by lia.
    rewrite Ew, rev_nth
      by (rewrite scale_length, length_app, Lh, lfilter_length,
            repeat_length; lia).
    rewrite scale_length, length_app, Lh, lfilter_length, repeat_length.
    rewrite nth_scale. f_equal.
    rewrite app_nth2 by (rewrite Lh; lia). rewrite Lh.
    replace (10 + (9 + d) - 10 - 10)%nat with (d - 9 + 2 + 2 + 2 + 2)%nat
      by lia.
    replace (9 + d)%nat with (d + 1 + 2 + 2 + 2 + 2)%nat by lia.
    rewrite !decay_shift. reflexivity.
  - clearbody f0 f1.
    apply decay_bound; do 4 apply abs_ring_down; assumption.
Qed.

Lemma balance_silent_of_head (s y : list Qc) (d : nat) :
  silent (delayed s d) ->
  Sig.filtfilt butter2_half (delayed s d) = Ok y ->
  Np.scale s (Py.lit 95 100) = Np.scale y (Py.lit 85 100) ->
  silent s.
Proof.
  intros Hx F E.
  apply (scale_silent_inv s (Py.lit 95 100)); [discriminate|].
  rewrite E. apply silent_scale. exact (filtfilt_silent _ _ _ Hx F).
Qed.

(** Channels in balance, one sample after the delay. *)
Lemma balance_silent_single (s y : list Qc) (d : nat) :
  (10 <= d)%nat -> length s = (d + 1)%nat ->
  Sig.filtfilt butter2_half (delayed s d) = Ok y ->
  Np.scale s (Py.lit 95 100) = Np.scale y (Py.lit 85 100) ->
  silent s.
Proof.
  intros Hd Hn F E.
  destruct s as [|v rest]; [cbn in Hn; lia|].
  assert (X : delayed (v :: rest) d = repeat 0 d ++ [v]).
  { unfold delayed. rewrite Hn.
    replace (d + 1 - d)%nat with 1%nat by lia. reflexivity. }
  assert (V : v = 0).
  { pose proof F as F'. rewrite X in F'.
    destruct (filtfilt_single_head d v y Hd F') as [K [HK BK]].
    assert (H0 : v * Py.lit 95 100 = nth 0 y 0 * Py.lit 85 100).
    { rewrite <- (nth_scale y), <- E. reflexivity. }
    rewrite HK in H0.
    assert (P : v * (Py.lit 95 100 - K * Py.lit 85 100) = 0).
    { replace (v * (Py.lit 95 100 - K * Py.lit 85 100))
        with (v * Py.lit 95 100 - K * v * Py.lit 85 100) by ring.
      rewrite H0. ring. }
    destruct (Qcmult_integral _ _ P) as [Z | Z]; [exact Z|].
    exfalso.
    assert (EK : K = Py.lit 95 100 / Py.lit 85 100).
    { field_simplify_eq; [|discriminate].
      apply (f_equal (fun q => Py.lit 95 100 - q)) in Z.
      ring_simplify in Z. rewrite Z. ring. }
    rewrite EK in BK. vm_compute in BK. apply BK. reflexivity. }
  apply (balance_silent_of_head _ y d); [|exact F|exact E].
  rewrite X, V. apply silent_app; [apply silent_repeat|].
  repeat constructor.
Qed.

(** Channels in balance leave no room for a signal, whatever follows a
    delay of ten samples or more. *)
Lemma balance_silent_any (s y : list Qc) (d : nat) :
  (10 <= d)%nat -> (d <= length s)%nat ->
  Sig.filtfilt butter2_half (delayed s d) = Ok y ->
  Np.scale s (Py.lit 95 100) = Np.scale y (Py.lit 85 100) ->
  silent s.
Proof.
  intros Hd Hn F E.
  destruct (Nat.eq_dec (length s) d) as [E0 | N0].
  - apply (balance_silent_of_head s y d); [|exact F|exact E].
    unfold delayed. rewrite E0, Nat.sub_diag. cbn [firstn].
    rewrite app_nil_r. apply silent_repeat.
  - destruct (Nat.eq_dec (length s) (d + 1)) as [E1 | N1].
    + exact (balance_silent_single s y d Hd E1 F E).
    + apply (balance_silent s y d); [exact Hd | lia | exact F | exact E].
Qed.

Lemma widen_silent_channels (lowpass_ba : biquad) (s y : list Qc) (d : nat) :
  silent s -> Sig.filtfilt lowpass_ba (delayed s d) = Ok y ->
  length y = length s ->
  Np.scale s (Py.lit 95 100) = Np.scale y (Py.lit 85 100).
Proof.
  intros Hs F L.
  assert (Hy : silent y).
  { eapply filtfilt_silent; [|exact F].
    unfold delayed. apply silent_app;
      [apply silent_repeat | apply silent_firstn, Hs]. }
  apply silent_eq; try apply silent_scale; try assumption.
  rewrite !scale_length. auto.
Qed.




(** ** Amplitude of the right channel *)

Lemma within_repeat_zero (n : nat) : within 1 (repeat 0 n).
Proof.
  unfold within. apply Forall_forall. intros v H.
  apply repeat_spec in H. subst v. vm_compute. discriminate.
Qed.

Lemma within_burst : within 1 burst.
Proof.
  unfold burst. apply Forall_app. split.
  - repeat constructor; vm_compute; discriminate.
  - apply within_repeat_zero.
Qed.

Lemma burst_right_channel_test :
  right_exceeds_unit
    (mono_to_stereo_effect butter2_half (Arr1 burst) 22050) 337 = true.
Proof. lazy. reflexivity. Qed.

(** C8, at a failing input.  [burst] is a clip within [-1, 1]; at
    22050 Hz the delay is 330 samples, the ten full-scale samples end
    the delayed signal, and the zero-phase low-pass, padded by odd
    reflection at that edge, overshoots: sample 337 of the right channel
    is about 1.081, and nothing rescales the channel afterwards. *)
Theorem widen_burst_exceeds_unit :
  within 1 burst /\
  exists l r,
    mono_to_stereo_effect butter2_half (Arr1 burst) 22050
      = Ok (Arr2 [l; r]) /\
    1 < Qcabs (nth 337 r 0) /\
    ~ within 1 r.
Proof.
  split; [apply within_burst|].
  destruct (right_exceeds_unit_spec _ _ burst_right_channel_test)
    as [l [r [E H]]].
  exists l, r. split; [exact E|]. split; [exact H|].
  apply (not_within_nth r 337 1 H). vm_compute. discriminate.
Qed.

(** * Further properties of the three transforms *)

(** ** The enhancer: when it returns, and what it keeps *)

(** The enhancer returns exactly for a non-empty signal at a sample rate
    above 10000 Hz. *)
Theorem enhance_returns_iff
    (band_design : nat -> Qc -> Qc -> list biquad)
    (s : list Qc) (sr : Z) :
  returns (enhance_guitar_frequencies band_design s sr)
  <-> (10000 < sr)%Z /\ s <> [].
Proof.
  split.
  - intros [out H].
    destruct (Z_lt_le_dec 10000 sr) as [Hsr | Hsr].
    + split; [exact Hsr|]. intros ->.
      rewrite (enhance_in_range band_design [] sr Hsr) in H.
      discriminate.
    + exfalso. destruct (Z.eq_dec sr 0) as [-> | Hnz].
      * rewrite enhance_zero_rate in H. discriminate.
      * rewrite (enhance_out_of_range band_design s sr Hsr Hnz) in H.
        discriminate.
  - intros [Hsr Hs].
    assert (Hm : mixed band_design s sr <> []).
    { intro E. apply (f_equal (@length Qc)) in E.
      rewrite mixed_length in E. destruct s; [congruence | discriminate]. }
    destruct (max_nonempty _ Hm) as [peak Hp].
    rewrite (enhance_in_range band_design s sr Hsr), Hp. cbn [bind].
    destruct (Py.ltb 1 peak); eexists; reflexivity.
Qed.

Lemma enhance_result_length
    (band_design : nat -> Qc -> Qc -> list biquad)
    (s : list Qc) (sr : Z) (out : list Qc) :
  enhance_guitar_frequencies band_design s sr = Ok out ->
  length out = length s.
Proof.
  intro H. apply enhance_result in H. destruct H as [m [_ ->]].
  destruct (Py.ltb 1 m); unfold Np.div; rewrite ?length_map;
    apply mixed_length.
Qed.

(** The enhancer returns as many samples as it was given. *)
Theorem enhance_preserves_length
    (band_design : nat -> Qc -> Qc -> list biquad)
    (s : list Qc) (sr : Z) (out : list Qc) :
  enhance_guitar_frequencies band_design s sr = Ok out ->
  length out = length s.
Proof.
  intro H. rewrite (enhance_result_length band_design s sr out H).
  reflexivity.
Qed.

Lemma enhance_preserves_length_witness :
  exists out,
    enhance_guitar_frequencies band_design_flat
      (q_list [1; 0; -1; 0]%Z) 22050 = Ok out /\
    length out = 4%nat.
Proof.
  assert (E : returns (enhance_guitar_frequencies band_design_flat
                         (q_list [1; 0; -1; 0]%Z) 22050))
    by (eexists; vm_compute; reflexivity).
  destruct E as [out E]. exists out. split; [exact E|].
  exact (enhance_preserves_length band_design_flat _ _ _ E).
Defined.

(** ** Silence through the enhancer *)

(** The enhancer hands silence back unchanged. *)
Theorem enhance_silence
    (band_design : nat -> Qc -> Qc -> list biquad)
    (s : list Qc) (sr : Z) (out : list Qc) :
  silent s ->
  enhance_guitar_frequencies band_design s sr = Ok out ->
  out = s.
Proof.
  intros Hs H.
  pose proof (enhance_result_length band_design s sr out H) as L.
  apply enhance_result in H. destruct H as [m [_ E]].
  assert (Hm : silent (mixed band_design s sr)).
  { unfold mixed. apply silent_add; [exact Hs|].
    apply silent_scale, sosfilt_silent, Hs. }
  apply silent_eq; [|exact Hs|exact L].
  subst out. destruct (Py.ltb 1 m); [apply silent_div|]; exact Hm.
Qed.

Lemma enhance_silence_witness :
  exists out,
    enhance_guitar_frequencies band_design_flat (repeat 0 6) 44100 = Ok out /\
    out = repeat 0 6.
Proof.
  assert (E : returns (enhance_guitar_frequencies band_design_flat
                         (repeat 0 6) 44100))
    by (eexists; vm_compute; reflexivity).
  destruct E as [out E]. exists out. split; [exact E|].
  exact (enhance_silence band_design_flat _ _ _ (silent_repeat 6) E).
Defined.

(** ** The widener: when it returns *)

Lemma delayed_length_any (s : list Qc) (d : nat) :
  length (delayed s d) = Nat.max d (length s).
Proof.
  unfold delayed. rewrite length_app, repeat_length, length_firstn. lia.
Qed.

(** For a mono input the widener returns exactly when the delay is at
    least one sample and at most the input's length, and the input has
    more than nine samples (the pad length of the zero-phase filter). *)
Theorem widen_mono_returns_iff (lowpass_ba : biquad) (s : list Qc) (sr : Z) :
  returns (Sig.lfilter_zi lowpass_ba) ->
  (returns (mono_to_stereo_effect lowpass_ba (Arr1 s) sr)
   <-> (0 < delay_of sr <= Z.of_nat (length s))%Z /\
       (Sig.edge < length s)%nat).
Proof.
  intro Hz. split.
  - intros [out H]. apply widen_mono_inv in H.
    destruct H as [Hd [y [F [L _]]]].
    apply filtfilt_inv in F. destruct F as [He [_ L']].
    rewrite delayed_length_any in He, L'.
    set (d := delay_of sr) in *. clearbody d.
    set (e := Sig.edge) in *. clearbody e.
    split; lia.
  - intros [Hd Hn]. apply widen_mono_returns; assumption.
Qed.

Lemma widen_mono_returns_iff_witness :
  returns (mono_to_stereo_effect butter2_half (Arr1 (repeat 0 400)) 22050)
  <-> (0 < delay_of 22050 <= Z.of_nat (length (repeat (Q2Qc 0) 400)))%Z /\
      (Sig.edge < length (repeat (Q2Qc 0) 400))%nat.
Proof.
  apply (widen_mono_returns_iff butter2_half).
  eexists. vm_compute. reflexivity.
Defined.

(** ** The delay *)

Lemma int_nonneg (x : Qc) : 0 <= x -> Py.int x = Qfloor x.
Proof.
  intro H. unfold Py.int. destruct x as [[n d] c]. simpl in *.
  unfold Qcle, Qle in H. simpl in H.
  apply Z.quot_div_nonneg; lia.
Qed.

Lemma int_nonpos (x : Qc) : x <= 0 -> (Py.int x <= 0)%Z.
Proof.
  intro H. unfold Py.int. destruct x as [[n d] c]. simpl in *.
  unfold Qcle, Qle in H. simpl in H.
  assert (Hn : (n <= 0)%Z) by lia.
  rewrite <- (Z.opp_involutive n), Z.quot_opp_l by lia.
  pose proof (Z.quot_pos (- n) (Zpos d)). lia.
Qed.

Lemma this_scaled_rate (sr : Z) :
  (this (Py.lit 15 1000 * Py.of_Z sr) == (15 * sr # 1000))%Q.
Proof.
  qc_to_q. unfold Qeq, Qmult, inject_Z. simpl. lia.
Qed.

Lemma delay_floor (sr : Z) :
  (0 <= sr)%Z -> delay_of sr = (15 * sr / 1000)%Z.
Proof.
  intro H. unfold delay_of. rewrite int_nonneg.
  - rewrite this_scaled_rate. reflexivity.
  - unfold Qcle. rewrite this_scaled_rate.
    change (this 0) with 0%Q. unfold Qle. cbn [Qnum Qden]. lia.
Qed.

(** For a non-negative rate the delay is the floor of 0.015 times the
    rate, so it grows with the rate. *)
Theorem delay_is_floor (sr : Z) :
  (0 <= sr)%Z ->
  delay_of sr = (15 * sr / 1000)%Z /\
  (forall sr', (sr <= sr')%Z -> (delay_of sr <= delay_of sr')%Z).
Proof.
  intro H. split; [apply delay_floor, H|].
  intros sr' H'. rewrite !delay_floor by lia.
  apply Z.div_le_mono; lia.
Qed.

Lemma delay_is_floor_witness : delay_of 44100 = (15 * 44100 / 1000)%Z.
Proof. apply (proj1 (delay_is_floor 44100 ltac:(lia))). Defined.

Lemma delay_low_rate (sr : Z) : (sr < 67)%Z -> (delay_of sr <= 0)%Z.
Proof.
  intro H. destruct (Z_lt_le_dec sr 0) as [Neg | Pos].
  - unfold delay_of. apply int_nonpos.
    unfold Qcle. rewrite this_scaled_rate.
    change (this 0) with 0%Q. unfold Qle. cbn [Qnum Qden]. lia.
  - rewrite delay_floor by exact Pos.
    assert (15 * sr / 1000 < 1)%Z by (apply Z.div_lt_upper_bound; lia).
    lia.
Qed.

(** Below 67 Hz the delay is not positive, and the widener raises for
    every mono input. *)
Theorem widen_raises_below_67
    (lowpass_ba : biquad) (s : list Qc) (sr : Z) :
  (sr < 67)%Z -> raises (mono_to_stereo_effect lowpass_ba (Arr1 s) sr).
Proof.
  intro H. pose proof (delay_low_rate sr H) as D.
  destruct (mono_to_stereo_effect lowpass_ba (Arr1 s) sr) as [out|e] eqn:E;
    [|eexists; reflexivity].
  apply widen_mono_inv in E. destruct E as [Hd _]. lia.
Qed.

Lemma widen_raises_below_67_witness :
  raises (mono_to_stereo_effect butter2_half (Arr1 (repeat 0 400)) 50).
Proof. apply (widen_raises_below_67 butter2_half). lia. Defined.

(** The widener turns silence into two silent channels. *)
Theorem widen_silence
    (lowpass_ba : biquad) (s : list Qc) (sr : Z) (out : ndarray) :
  silent s ->
  mono_to_stereo_effect lowpass_ba (Arr1 s) sr = Ok out ->
  out = Arr2 [s; s].
Proof.
  intros Hs H. apply widen_mono_inv in H.
  destruct H as [_ [y [F [L ->]]]].
  assert (Hy : silent y).
  { eapply filtfilt_silent; [|exact F].
    unfold delayed. apply silent_app;
      [apply silent_repeat | apply silent_firstn, Hs]. }
  f_equal. f_equal; [|f_equal]; apply silent_eq;
    try apply silent_scale; try assumption;
    rewrite scale_length; auto.
Qed.

Lemma widen_silence_witness :
  exists out,
    mono_to_stereo_effect butter2_half (Arr1 (repeat 0 400)) 22050 = Ok out /\
    out = Arr2 [repeat 0 400; repeat 0 400].
Proof.
  assert (E : returns (mono_to_stereo_effect butter2_half
                         (Arr1 (repeat 0 400)) 22050)).
  { apply widen_mono_returns.
    - vm_compute. split; [reflexivity | discriminate].
    - vm_compute. lia.
    - eexists. vm_compute. reflexivity. }
  destruct E as [out E]. exists out. split; [exact E|].
  exact (widen_silence butter2_half _ _ _ (silent_repeat 400) E).
Defined.

(** ** Length of the stretched signal *)

Lemma floor_of_Z (m : Z) : Qfloor (Py.of_Z m) = m.
Proof. rewrite of_Z_this. apply Qfloor_Z. Qed.

Lemma round_of_Z (m : Z) : Py.round (Py.of_Z m) = m.
Proof.
  unfold Py.round. rewrite floor_of_Z.
  replace (Py.of_Z m - Py.of_Z m) with 0 by ring.
  reflexivity.
Qed.

Lemma frac_compare (x : Qc) :
  match Qccompare (x - Py.of_Z (Qfloor x)) (Py.lit 1 2) with
  | Eq => (x - inject_Z (Qfloor x) == 1 # 2)%Q
  | Lt => (x - inject_Z (Qfloor x) < 1 # 2)%Q
  | Gt => (1 # 2 < x - inject_Z (Qfloor x))%Q
  end.
Proof.
  destruct (Qccompare (x - Py.of_Z (Qfloor x)) (Py.lit 1 2)) eqn:C;
    unfold Qccompare in C.
  - apply Qeq_alt in C. rewrite this_minus_of_Z, this_lit in C. exact C.
  - apply Qlt_alt in C. rewrite this_minus_of_Z, this_lit in C. exact C.
  - apply Qgt_alt in C. rewrite this_minus_of_Z, this_lit in C. exact C.
Qed.

Lemma round_monotone (x y : Qc) : x <= y -> (Py.round x <= Py.round y)%Z.
Proof.
  intro H. pose proof (Qfloor_resp_le x y H) as F.
  destruct (Z.eq_dec (Qfloor x) (Qfloor y)) as [E | N].
  - pose proof (frac_compare x) as Cx. pose proof (frac_compare y) as Cy.
    unfold Py.round. rewrite <- E in *. unfold Qcle in H.
    destruct (Qccompare (x - Py.of_Z (Qfloor x)) (Py.lit 1 2));
      destruct (Qccompare (y - Py.of_Z (Qfloor x)) (Py.lit 1 2));
      destruct (Z.even (Qfloor x)); try lia; exfalso;
      set (f := inject_Z (Qfloor x)) in *; clearbody f; lra.
  - destruct (round_floor_cases x) as [-> | ->];
      destruct (round_floor_cases y) as [-> | ->]; lia.
Qed.

Lemma Qcdiv_antitone (n f g : Qc) :
  0 <= n -> 0 < f -> f <= g -> n / g <= n / f.
Proof.
  intros Hn Hf Hfg.
  assert (Hg : 0 < g) by (eapply Qclt_le_trans; eassumption).
  unfold Qcle, Qclt in *. rewrite !this_div.
  change (this 0) with 0%Q in *.
  assert (Ef : (this f * / this f == 1)%Q) by (apply Qmult_inv_r; lra).
  assert (Eg : (this g * / this g == 1)%Q) by (apply Qmult_inv_r; lra).
  assert (If : (0 < / this f)%Q) by (apply Qinv_lt_0_compat; exact Hf).
  assert (Ig : (0 < / this g)%Q) by (apply Qinv_lt_0_compat; exact Hg).
  set (i := (/ this f)%Q) in *. set (j := (/ this g)%Q) in *.
  clearbody i j.
  assert (J : (j <= i)%Q) by nra.
  nra.
Qed.

(** Stretching by exactly 1.0 returns as many samples as it was given. *)
Theorem stretch_unit_factor_keeps_length
    (resynthesis : list Qc -> Qc -> list Qc) (s : list Qc) (sr : Z) :
  exists out,
    change_speed_preserve_pitch resynthesis s sr 1 = Ok out /\
    length out = length s.
Proof.
  eexists. split.
  - apply stretch_positive. apply Qclt_0_1.
  - rewrite fix_length_length.
    replace (Py.of_nat (length s) / 1) with (Py.of_nat (length s))
      by (unfold Qcdiv; field; discriminate).
    unfold Py.of_nat. rewrite round_of_Z. apply Nat2Z.id.
Qed.

(** When the input length is a whole multiple [m * f] of the factor, the
    output has exactly [m] samples: half speed doubles the length. *)
Theorem stretch_exact_length
    (resynthesis : list Qc -> Qc -> list Qc)
    (s : list Qc) (sr : Z) (f : Qc) (m : Z) :
  0 < f ->
  Py.of_nat (length s) = Py.of_Z m * f ->
  exists out,
    change_speed_preserve_pitch resynthesis s sr f = Ok out /\
    Z.of_nat (length out) = m.
Proof.
  intros Hf E. eexists. split.
  - apply stretch_positive. exact Hf.
  - rewrite fix_length_length.
    assert (D : Py.of_nat (length s) / f = Py.of_Z m).
    { rewrite E. apply Qcdiv_mult_l. intros ->.
      revert Hf. apply Qcle_not_lt, Qcle_refl. }
    pose proof (round_nonneg (Py.of_nat (length s) / f)
                  (Qcdiv_nonneg _ _ (of_nat_nonneg _) Hf)) as R.
    rewrite D, round_of_Z in *. apply Z2Nat.id, R.
Qed.

Lemma stretch_exact_length_witness :
  exists out,
    change_speed_preserve_pitch resynthesis_id
      (q_list [1; 0; -1; 0]%Z) 22050 (Py.lit 1 2) = Ok out /\
    Z.of_nat (length out) = 8%Z.
Proof.
  apply (stretch_exact_length resynthesis_id).
  - reflexivity.
  - apply Qc_is_canon. vm_compute. reflexivity.
Defined.

(** A smaller factor never gives a shorter output: slowing down cannot
    shorten the recording, speeding up cannot lengthen it. *)
Theorem stretch_length_antitone
    (resynthesis : list Qc -> Qc -> list Qc)
    (s : list Qc) (sr : Z) (f g : Qc) (slow fast : list Qc) :
  0 < f -> f <= g ->
  change_speed_preserve_pitch resynthesis s sr f = Ok slow ->
  change_speed_preserve_pitch resynthesis s sr g = Ok fast ->
  (length fast <= length slow)%nat.
Proof.
  intros Hf Hfg Es Ef.
  assert (Hg : 0 < g) by (eapply Qclt_le_trans; eassumption).
  rewrite (stretch_positive resynthesis s sr f Hf) in Es.
  rewrite (stretch_positive resynthesis s sr g Hg) in Ef.
  apply Ok_inj in Es, Ef. subst slow fast.
  rewrite !fix_length_length. apply Z2Nat.inj_le.
  - apply round_nonneg, Qcdiv_nonneg; [apply of_nat_nonneg | exact Hg].
  - apply round_nonneg, Qcdiv_nonneg; [apply of_nat_nonneg | exact Hf].
  - apply round_monotone, Qcdiv_antitone; try assumption.
    apply of_nat_nonneg.
Qed.

Lemma stretch_length_antitone_witness :
  exists slow fast,
    change_speed_preserve_pitch resynthesis_id
      (q_list [1; 0; -1; 0; 1]%Z) 22050 (Py.lit 3 4) = Ok slow /\
    change_speed_preserve_pitch resynthesis_id
      (q_list [1; 0; -1; 0; 1]%Z) 22050 (Py.lit 2 1) = Ok fast /\
    (length fast <= length slow)%nat.
Proof.
  assert (Es : returns (change_speed_preserve_pitch resynthesis_id
                (q_list [1; 0; -1; 0; 1]%Z) 22050 (Py.lit 3 4)))
    by (eexists; apply stretch_positive; reflexivity).
  assert (Ef : returns (change_speed_preserve_pitch resynthesis_id
                (q_list [1; 0; -1; 0; 1]%Z) 22050 (Py.lit 2 1)))
    by (eexists; apply stretch_positive; reflexivity).
  destruct Es as [slow Es]. destruct Ef as [fast Ef].
  exists slow, fast. split; [exact Es|]. split; [exact Ef|].
  refine (stretch_length_antitone resynthesis_id _ 22050
            (Py.lit 3 4) (Py.lit 2 1) slow fast _ _ Es Ef).
  - reflexivity.
  - vm_compute. discriminate.
Defined.

(** * The command *)

(** ** Text replacement *)

Lemma starts_with_true (pat s : path) :
  Str.starts_with pat s = true <-> exists post, s = pat ++ post.
Proof.
  revert s. induction pat as [|a pat IH]; intro s; simpl.
  - split; [intros _; exists s; reflexivity | reflexivity].
  - destruct s as [|b s].
    + split; [discriminate | intros [post E]; discriminate].
    + rewrite andb_true_iff, Ascii.eqb_eq, IH. split.
      * intros [-> [post ->]]. exists post. reflexivity.
      * intros [post E]. injection E as -> ->. split; [reflexivity|].
        exists post. reflexivity.
Qed.

Lemma occurs_at_head (old s : path) :
  Str.starts_with old s = true -> occurs old s.
Proof.
  intro H. apply starts_with_true in H. destruct H as [post ->].
  exists [], post. reflexivity.
Qed.

Lemma occurs_tail (old : path) (c : Ascii.ascii) (s : path) :
  occurs old s -> occurs old (c :: s).
Proof.
  intros [pre [post ->]]. exists (c :: pre), post. reflexivity.
Qed.

(** Without an occurrence the text is left as it is. *)
Lemma replace_without_occurrence (old new s : path) :
  ~ occurs old s -> Str.replace s old new = s.
Proof.
  unfold Str.replace. induction s as [|c s IH]; intro H; simpl.
  - reflexivity.
  - destruct (Str.starts_with old (c :: s)) eqn:E.
    + exfalso. apply H, occurs_at_head, E.
    + f_equal. apply IH. intro O. apply H, occurs_tail, O.
Qed.

Lemma replace_from_length (old new s : path) (skip : nat) :
  (1 <= length old <= length new)%nat ->
  (length s <= length (Str.replace_from old new s skip) + skip)%nat.
Proof.
  intro L. revert skip. induction s as [|c s IH]; intro skip; simpl.
  - lia.
  - destruct skip as [|k].
    + destruct (Str.starts_with old (c :: s)).
      * rewrite length_app. specialize (IH (length old - 1)%nat). lia.
      * simpl. specialize (IH 0%nat). lia.
    + specialize (IH k). lia.
Qed.

(** With an occurrence, and a replacement longer than the text replaced,
    the result is longer. *)
Lemma replace_with_occurrence (old new s : path) :
  (1 <= length old < length new)%nat ->
  occurs old s ->
  (length s < length (Str.replace s old new))%nat.
Proof.
  intros L [pre [post ->]]. unfold Str.replace.
  induction pre as [|c pre IH].
  - simpl app. destruct old as [|a old]; [simpl in L; lia|].
    simpl app. cbn [Str.replace_from].
    assert (E : Str.starts_with (a :: old) (a :: old ++ post) = true)
      by (apply starts_with_true; exists post; reflexivity).
    rewrite E, length_app.
    pose proof (replace_from_length (a :: old) new (old ++ post)
                  (length (a :: old) - 1)) as B.
    simpl length in *. lia.
  - simpl app. cbn [Str.replace_from].
    destruct (Str.starts_with old (c :: pre ++ old ++ post)).
    + rewrite length_app.
      pose proof (replace_from_length old new (pre ++ old ++ post)
                    (length old - 1)) as B.
      simpl length. lia.
    + simpl length. lia.
Qed.

Lemma extension_lengths (f : format) :
  (1 <= length (str "."%string ++ format_name f)
   < length (str "_temp.wav"%string))%nat.
Proof. destruct f; simpl; lia. Qed.

Lemma temp_collides_spec (output : path) (f : format) :
  temp_wav_of output f = output
  <-> ~ occurs (str "."%string ++ format_name f) output.
Proof.
  unfold temp_wav_of. split.
  - intros E O.
    pose proof (replace_with_occurrence _ _ output
                  (extension_lengths f) O) as L.
    rewrite E in L. lia.
  - apply replace_without_occurrence.
Qed.

(** ** Processing *)

Lemma transpose_one_row (s : list Qc) :
  transpose (Arr2 [s]) = Arr2 (map (fun v => [v]%list) s).
Proof.
  unfold transpose. f_equal. cbn [hd].
  apply nth_ext with (d := []) (d' := []).
  - rewrite !length_map, length_seq. reflexivity.
  - intros i Hi. rewrite length_map, length_seq in Hi.
    rewrite (nth_indep _ [] (map (fun row => nth (length s) row 0) [s]))
      by (rewrite length_map, length_seq; exact Hi).
    rewrite (map_nth (fun i => map (fun row => nth i row 0) [s])
               (seq 0 (length s)) (length s) i).
    rewrite seq_nth by exact Hi. simpl.
    rewrite (nth_indep _ [] [0]%list) by (rewrite length_map; exact Hi).
    rewrite (map_nth (fun v => [v]%list) s 0 i). reflexivity.
Qed.

Lemma transpose_two_rows (l r : list Qc) :
  exists frames,
    transpose (Arr2 [l; r]) = Arr2 frames /\
    length frames = length l /\
    Forall (fun frame => length frame = 2%nat) frames.
Proof.
  eexists. split; [reflexivity|]. split.
  - rewrite length_map, length_seq. reflexivity.
  - apply Forall_forall. intros frame H. apply in_map_iff in H.
    destruct H as [i [<- _]]. reflexivity.
Qed.

Section CommandFacts.

Variable resynthesis : list Qc -> Qc -> list Qc.
Variable band_design : nat -> Qc -> Qc -> list biquad.
Variable lowpass_ba : biquad.
Variable os : host.

(** A stage that raises ends the run before anything is handed to the
    host. *)
Lemma slowmedown_when_processing_raises
    (audio_data : list Qc) (sr : Z) (input_file : path) (speed : Qc)
    (enhance_guitar stereo : bool) (output : option path) (fmt : format)
    (d : disk) (e : error) :
  process resynthesis band_design lowpass_ba audio_data sr speed
    enhance_guitar stereo = Err e ->
  slowmedown resynthesis band_design lowpass_ba os audio_data sr input_file
    speed enhance_guitar stereo output fmt d = (d, Some (Raised e)).
Proof.
  intro H. unfold slowmedown. rewrite H. reflexivity.
Qed.

End CommandFacts.


(** ** Names *)

(** The temporary name is the output name itself exactly when the output
    name does not contain a dot followed by the format; otherwise it is
    longer than the output name. *)
Theorem temp_name_collides_iff (output : path) (f : format) :
  (temp_wav_of output f = output
   <-> ~ occurs (str "."%string ++ format_name f) output) /\
  (occurs (str "."%string ++ format_name f) output ->
   (length output < length (temp_wav_of output f))%nat).
Proof.
  split; [apply temp_collides_spec|].
  apply replace_with_occurrence, extension_lengths.
Qed.

Lemma temp_name_collides_iff_witness :
  (length (str "take.final.mp3"%string)
   < length (temp_wav_of (str "take.final.mp3"%string) mp3))%nat.
Proof.
  apply (proj2 (temp_name_collides_iff (str "take.final.mp3"%string) mp3)).
  exists (str "take.final"%string), []. reflexivity.
Defined.

(** ** Processing stages of a run *)

Lemma speed_not_one (speed : Qc) : speed <= 0 -> Qc_eq_bool speed 1 = false.
Proof.
  intro H. apply Qc_eq_bool_false. intros ->.
  revert H. apply Qclt_not_le, Qclt_0_1.
Qed.

Section ProcessFacts.

Variable resynthesis : list Qc -> Qc -> list Qc.
Variable band_design : nat -> Qc -> Qc -> list biquad.
Variable lowpass_ba : biquad.

(** The first stage: skipped at exactly 1.0, the stretcher otherwise. *)
Lemma first_stage_returns (audio_data : list Qc) (sr : Z) (speed : Qc) :
  0 < speed ->
  exists stretched,
    (if negb (Qc_eq_bool speed 1)
     then change_speed_preserve_pitch resynthesis audio_data sr speed
     else Ok audio_data) = Ok stretched /\
    (speed = 1 -> stretched = audio_data).
Proof.
  intro H. destruct (Qc_eq_bool speed 1) eqn:E; cbn [negb].
  - exists audio_data. auto.
  - eexists. split; [apply stretch_positive, H|].
    intro E1. apply Qc_eq_bool_false in E. contradiction.
Qed.

Lemma process_inv (audio_data : list Qc) (sr : Z) (speed : Qc)
    (enhance_guitar stereo : bool) (a : ndarray) :
  process resynthesis band_design lowpass_ba audio_data sr speed
    enhance_guitar stereo = Ok a ->
  exists stretched enhanced,
    (if negb (Qc_eq_bool speed 1)
     then change_speed_preserve_pitch resynthesis audio_data sr speed
     else Ok audio_data) = Ok stretched /\
    (if enhance_guitar
     then enhance_guitar_frequencies band_design stretched sr
     else Ok stretched) = Ok enhanced /\
    (if stereo
     then mono_to_stereo_effect lowpass_ba (Arr1 enhanced) sr
     else Ok (Arr2 [enhanced])) = Ok a.
Proof.
  unfold process.
  destruct (if negb (Qc_eq_bool speed 1)
            then change_speed_preserve_pitch resynthesis audio_data sr speed
            else Ok audio_data) as [stretched|e]; cbn [bind];
    [|discriminate].
  destruct (if enhance_guitar
            then enhance_guitar_frequencies band_design stretched sr
            else Ok stretched) as [enhanced|e] eqn:E2; cbn [bind];
    [|discriminate].
  intro H. exists stretched, enhanced.
  split; [reflexivity|]. split; [exact E2 | exact H].
Qed.

End ProcessFacts.

(** The frames handed to the writer: one sample per frame without
    [--stereo], two with it; and at speed 1.0 as many frames as samples
    were loaded. *)
Theorem processed_frames_shape
    (resynthesis : list Qc -> Qc -> list Qc)
    (band_design : nat -> Qc -> Qc -> list biquad) (lowpass_ba : biquad)
    (audio_data : list Qc) (sr : Z) (speed : Qc)
    (enhance_guitar stereo : bool) (a : ndarray) :
  process resynthesis band_design lowpass_ba audio_data sr speed
    enhance_guitar stereo = Ok a ->
  exists frames,
    transpose a = Arr2 frames /\
    Forall (fun frame => length frame = channels stereo) frames /\
    (speed = 1 -> length frames = length audio_data).
Proof.
  intro H. apply process_inv in H.
  destruct H as [stretched [enhanced [H1 [H2 H3]]]].
  assert (L1 : speed = 1 -> length stretched = length audio_data).
  { intros ->. change (Qc_eq_bool 1 1) with true in H1. cbn [negb] in H1.
    apply Ok_inj in H1. subst. reflexivity. }
  assert (L2 : length enhanced = length stretched).
  { destruct enhance_guitar.
    - apply (enhance_result_length band_design stretched sr), H2.
    - apply Ok_inj in H2. subst. reflexivity. }
  destruct stereo; cbn [channels].
  - apply widen_mono_inv in H3. destruct H3 as [_ [y [_ [Ly ->]]]].
    destruct (transpose_two_rows (Np.scale enhanced (Py.lit 95 100))
                (Np.scale y (Py.lit 85 100))) as [frames [T [Lf F]]].
    exists frames. split; [exact T|]. split; [exact F|].
    intro E. rewrite Lf, scale_length, L2. apply L1, E.
  - apply Ok_inj in H3. subst a. rewrite transpose_one_row.
    eexists. split; [reflexivity|]. split.
    + apply Forall_forall. intros frame I. apply in_map_iff in I.
      destruct I as [v [<- _]]. reflexivity.
    + intro E. rewrite length_map, L2. apply L1, E.
Qed.

Lemma processed_frames_shape_witness :
  exists frames,
    transpose (Arr2 [q_list [1; 0; -1]%Z]) = Arr2 frames /\
    Forall (fun frame => length frame = channels false) frames /\
    (1 = 1 -> length frames = length (q_list [1; 0; -1]%Z)).
Proof.
  apply (processed_frames_shape resynthesis_id band_design_flat butter2_half
           (q_list [1; 0; -1]%Z) 22050 1 false false).
  reflexivity.
Defined.

(** At speed 1.0 with neither option the frames handed to the writer are
    the loaded samples, one per frame; the stretcher is not consulted. *)
Theorem plain_run_frames
    (resynthesis : list Qc -> Qc -> list Qc)
    (band_design : nat -> Qc -> Qc -> list biquad) (lowpass_ba : biquad)
    (audio_data : list Qc) (sr : Z) :
  exists a,
    process resynthesis band_design lowpass_ba audio_data sr 1 false false
      = Ok a /\
    transpose a = Arr2 (map (fun v => [v]%list) audio_data).
Proof.
  exists (Arr2 [audio_data]). split; [reflexivity|].
  apply transpose_one_row.
Qed.

(** A speed that is not positive stops the run with [ParameterError]
    whatever the other options, and nothing is written. *)
Theorem run_rejects_nonpositive_speed
    (resynthesis : list Qc -> Qc -> list Qc)
    (band_design : nat -> Qc -> Qc -> list biquad) (lowpass_ba : biquad)
    (audio_data : list Qc) (sr : Z) (input_file : path) (speed : Qc)
    (enhance_guitar stereo : bool) (output : option path) (fmt : format)
    (os : host) (d : disk) :
  speed <= 0 ->
  slowmedown resynthesis band_design lowpass_ba os audio_data sr input_file
    speed enhance_guitar stereo output fmt d
  = (d, Some (Raised ParameterError)).
Proof.
  intro H. apply slowmedown_when_processing_raises.
  unfold process. rewrite (speed_not_one speed H). cbn [negb].
  rewrite (stretch_nonpositive resynthesis audio_data sr speed H).
  reflexivity.
Qed.

Lemma run_rejects_nonpositive_speed_witness :
  slowmedown resynthesis_id band_design_flat butter2_half host_refusing
    (q_list [1; 0; -1]%Z) 22050 (str "song.mp3"%string) 0 true true
    None mp3 (fun _ => None)
  = (fun _ => None, Some (Raised ParameterError)).
Proof.
  apply (run_rejects_nonpositive_speed resynthesis_id band_design_flat
           butter2_half).
  vm_compute. discriminate.
Defined.

(** With [--enhance-guitar], a recording sampled at 10000 Hz or less
    stops every run with a positive speed, and nothing is written. *)
Theorem run_enhance_needs_high_rate
    (resynthesis : list Qc -> Qc -> list Qc)
    (band_design : nat -> Qc -> Qc -> list biquad) (lowpass_ba : biquad)
    (audio_data : list Qc) (sr : Z) (input_file : path) (speed : Qc)
    (stereo : bool) (output : option path) (fmt : format)
    (os : host) (d : disk) :
  (sr <= 10000)%Z -> 0 < speed ->
  exists e,
    slowmedown resynthesis band_design lowpass_ba os audio_data sr
      input_file speed true stereo output fmt d
    = (d, Some (Raised e)).
Proof.
  intros Hsr Hs.
  destruct (first_stage_returns resynthesis audio_data sr speed Hs)
    as [stretched [E _]].
  assert (R : exists e,
             enhance_guitar_frequencies band_design stretched sr = Err e).
  { destruct (Z.eq_dec sr 0) as [-> | Hnz].
    - eexists. apply enhance_zero_rate.
    - eexists. apply enhance_out_of_range; assumption. }
  destruct R as [e R]. exists e.
  apply slowmedown_when_processing_raises.
  unfold process. rewrite E. cbn [bind]. rewrite R. reflexivity.
Qed.

Lemma run_enhance_needs_high_rate_witness :
  exists e,
    slowmedown resynthesis_id band_design_flat butter2_half host_refusing
      (q_list [1; 0; -1]%Z) 8000 (str "song.mp3"%string) (Py.lit 3 4)
      true false None mp3 (fun _ => None)
    = (fun _ => None, Some (Raised e)).
Proof.
  apply (run_enhance_needs_high_rate resynthesis_id band_design_flat
           butter2_half).
  - lia.
  - reflexivity.
Defined.
